(** * RISC-V_micro, apps/TestC/src/main.c: trap dispatcher and LR/SC lock

    A shallow embedding of [handle_trap], [atomic_lr_sc] and [main] as small
    step machines over the hardware state they touch (two CSRs, the two timer
    registers of the memory-mapped I/O block, word memory, the reservation of
    the hart and the registers a0..a3 named by the inline assembly), followed
    by the properties of the specification. *)

From Stdlib Require Import ZArith List Bool Lia String.
Import ListNotations.
Local Open Scope Z_scope.

(** ** Machine integers *)

(** [uint64_t] arithmetic of the C code: results are reduced modulo 2^64. *)
Definition wrap64 (x : Z) : Z := x mod 2 ^ 64.

(** [uint32_t] arithmetic of the C code. *)
Definition wrap32 (x : Z) : Z := x mod 2 ^ 32.

(** [a + b] at type [uint64_t]. *)
Definition add64 (a b : Z) : Z := wrap64 (a + b).

(** ** Address map (main.c lines 9-11 and 85) *)

Definition IO_BASE : Z := 0xc0000000.
Definition IO_MTIME : Z := IO_BASE + 0x00004000.
Definition IO_MTIMECMP : Z := IO_BASE + 0x00004008.

(** The operand of [la a0, 0xc0100000] (line 85): the word on which the
    load-reserved / store-conditional pair operates. *)
Definition LOCK_ADDR : Z := 0xc0100000.

(** The two [mcause] values handled as resumable interrupts. *)
Definition CAUSE_TIMER : Z := 0x80000007.
Definition CAUSE_EXTERNAL : Z := 0x8000000b.

(** [uint32_t mip = 1 << 7] and [uint32_t mip = 1 << 11]. *)
Definition MIP_TIMER : Z := wrap32 (Z.shiftl 1 7).
Definition MIP_EXTERNAL : Z := wrap32 (Z.shiftl 1 11).

(** ** Hardware state *)

Record hw : Type := mkHw {
  mcause : Z;            (* CSR mcause, written by the hardware at trap entry *)
  mip : Z;               (* CSR mip, the pending-interrupt bit field *)
  mtime : Z;             (* the free running counter behind IO_MTIME *)
  mtimecmp : Z;          (* the compare register behind IO_MTIMECMP *)
  mem : Z -> Z;          (* 32-bit words, by address *)
  resv : option Z;       (* address reserved by the last lr.w, if still held *)
  a0 : Z; a1 : Z; a2 : Z; a3 : Z
}.

Definition set_mip (v : Z) (h : hw) : hw :=
  mkHw (mcause h) v (mtime h) (mtimecmp h) (mem h) (resv h)
       (a0 h) (a1 h) (a2 h) (a3 h).
Definition set_mcause (v : Z) (h : hw) : hw :=
  mkHw v (mip h) (mtime h) (mtimecmp h) (mem h) (resv h)
       (a0 h) (a1 h) (a2 h) (a3 h).
Definition set_mtime (v : Z) (h : hw) : hw :=
  mkHw (mcause h) (mip h) v (mtimecmp h) (mem h) (resv h)
       (a0 h) (a1 h) (a2 h) (a3 h).
Definition set_mtimecmp (v : Z) (h : hw) : hw :=
  mkHw (mcause h) (mip h) (mtime h) v (mem h) (resv h)
       (a0 h) (a1 h) (a2 h) (a3 h).
Definition set_mem (m : Z -> Z) (h : hw) : hw :=
  mkHw (mcause h) (mip h) (mtime h) (mtimecmp h) m (resv h)
       (a0 h) (a1 h) (a2 h) (a3 h).
Definition set_resv (r : option Z) (h : hw) : hw :=
  mkHw (mcause h) (mip h) (mtime h) (mtimecmp h) (mem h) r
       (a0 h) (a1 h) (a2 h) (a3 h).
Definition set_a0 (v : Z) (h : hw) : hw :=
  mkHw (mcause h) (mip h) (mtime h) (mtimecmp h) (mem h) (resv h)
       v (a1 h) (a2 h) (a3 h).
Definition set_a1 (v : Z) (h : hw) : hw :=
  mkHw (mcause h) (mip h) (mtime h) (mtimecmp h) (mem h) (resv h)
       (a0 h) v (a2 h) (a3 h).
Definition set_a3 (v : Z) (h : hw) : hw :=
  mkHw (mcause h) (mip h) (mtime h) (mtimecmp h) (mem h) (resv h)
       (a0 h) (a1 h) (a2 h) v.

(** Word store: only the addressed word changes. *)
Definition store_word (m : Z -> Z) (addr v : Z) : Z -> Z :=
  fun x => if x =? addr then v else m x.

(** ** Observable accesses

    Every CSR instruction, every access to the I/O block and every atomic
    memory operation a routine performs is recorded, so that "who touches
    what" can be stated over a log. *)

Inductive csr : Type := MCAUSE | MIP.

Inductive access : Type :=
| CsrRead (c : csr) (v : Z)                       (* csrr *)
| CsrClear (c : csr) (mask : Z)                   (* csrc *)
| Load64 (addr v : Z)                             (* volatile uint64_t read *)
| Store64 (addr v : Z)                            (* volatile uint64_t write *)
| LoadReserved (addr v : Z)                       (* lr.w *)
| StoreConditional (addr v : Z) (ok : bool)       (* sc.w *)
| Print (s : string).                             (* printf *)

(** ** What happens around the processor

    The counter advances on its own, and the hart can lose its reservation
    between an [lr.w] and the following [sc.w] (the only way the conditional
    store of a single participant fails). *)

Inductive envact : Type :=
| Tick (d : N)
| LoseReservation.

Definition env (e : envact) (h : hw) : hw :=
  match e with
  | Tick d => set_mtime (wrap64 (mtime h + Z.of_N d)) h
  | LoseReservation => set_resv None h
  end.

(** ** Running a routine against the environment *)

Inductive action : Type :=
| Cpu                 (* the routine executes its next step *)
| Env (e : envact).   (* the environment moves *)

Section Run.
Context {F : Type}.
Variable cpu : F -> hw -> F * hw * list access.

Record conf : Type := Conf {
  frame_of : F;
  hw_of : hw;
  log_of : list access
}.

Definition act (a : action) (c : conf) : conf :=
  match a with
  | Cpu =>
      let '(f, h, evs) := cpu (frame_of c) (hw_of c) in
      Conf f h (log_of c ++ evs)
  | Env e => Conf (frame_of c) (env e (hw_of c)) (log_of c)
  end.

Definition exec (sched : list action) (c : conf) : conf :=
  fold_left (fun c a => act a c) sched c.

End Run.

Arguments conf F : clear implicits.
Arguments Conf {F} _ _ _.
Arguments frame_of {F} _.
Arguments hw_of {F} _.
Arguments log_of {F} _.

(** [n] consecutive steps of the routine, the environment standing still. *)
Definition steps (n : nat) : list action := repeat Cpu n.

(** Schedules in which the hart keeps its reservation: the executions of a
    single participant. *)
Definition keeps_reservation (a : action) : bool :=
  match a with
  | Env LoseReservation => false
  | _ => true
  end.

Definition undisturbed (sched : list action) : bool :=
  forallb keeps_reservation sched.

(** ** The trap dispatcher: [handle_trap] (main.c lines 18-80) *)

Module Trap.

(** The five [while (1);] loops of the switch. *)
Inductive halt_site : Type :=
| Fetch_fault          (* cases 0, 1: line 49 *)
| Resumable_fault      (* cases 2, 4, 5, 6, 7: line 62 *)
| Breakpoint           (* case 3: line 68 *)
| Ecall                (* case 8: line 73 *)
| Unhandled.           (* default: line 77 *)

Inductive pc : Type :=
| Entry                (* line 20: csrr %0, mcause *)
| Switch               (* line 22 *)
| Timer_csrc           (* lines 25-26 *)
| Timer_load           (* line 29, read of *IO_MTIME *)
| Timer_store          (* line 29, write of *IO_MTIMECMP *)
| Ext_csrc             (* lines 37-38 *)
| Halt (site : halt_site)
| Return.              (* line 80 *)

(** The locals of the function: the program point, the [uint32_t mcause]
    local and the value read from the counter. *)
Record frame : Type := Frame {
  at_ : pc;
  cause : Z;
  counter : Z
}.

(** [switch (mcause)], lines 22-79. *)
Definition switch (c : Z) : pc :=
  if c =? CAUSE_TIMER then Timer_csrc
  else if c =? CAUSE_EXTERNAL then Ext_csrc
  else if (c =? 0) || (c =? 1) then Halt Fetch_fault
  else if (c =? 2) || (c =? 4) || (c =? 5) || (c =? 6) || (c =? 7)
       then Halt Resumable_fault
  else if c =? 3 then Halt Breakpoint
  else if c =? 8 then Halt Ecall
  else Halt Unhandled.

Definition handle_trap (f : frame) (h : hw) : frame * hw * list access :=
  match at_ f with
  | Entry =>
      (Frame Switch (mcause h) (counter f), h, [CsrRead MCAUSE (mcause h)])
  | Switch =>
      (Frame (switch (cause f)) (cause f) (counter f), h, [])
  | Timer_csrc =>
      (Frame Timer_load (cause f) (counter f),
       set_mip (Z.land (mip h) (Z.lnot MIP_TIMER)) h,
       [CsrClear MIP MIP_TIMER])
  | Timer_load =>
      (Frame Timer_store (cause f) (mtime h), h, [Load64 IO_MTIME (mtime h)])
  | Timer_store =>
      (Frame Return (cause f) (counter f),
       set_mtimecmp (add64 (counter f) 1000) h,
       [Store64 IO_MTIMECMP (add64 (counter f) 1000)])
  | Ext_csrc =>
      (Frame Return (cause f) (counter f),
       set_mip (Z.land (mip h) (Z.lnot MIP_EXTERNAL)) h,
       [CsrClear MIP MIP_EXTERNAL])
  | Halt site => (f, h, [])      (* while (1); *)
  | Return => (f, h, [])
  end.

Definition entry : frame := Frame Entry 0 0.

(** Trap entry: the hardware has set [mcause]; the log starts empty. *)
Definition enter (h : hw) : conf frame := Conf entry h [].

Definition run : list action -> conf frame -> conf frame := exec handle_trap.

Definition returned (c : conf frame) : Prop := at_ (frame_of c) = Return.

Definition halted (c : conf frame) : Prop :=
  exists site, at_ (frame_of c) = Halt site.

End Trap.

(** ** The lock routine: [atomic_lr_sc] (main.c lines 82-92) *)

Module Atomic.

(** One program point per instruction; [Again] is the label [again:]. *)
Inductive pc : Type :=
| Again                (* line 85: la a0, 0xc0100000 *)
| Li                   (* line 86: li a1, 0 *)
| Lr                   (* line 87: lr.w.aq a3, (a0) *)
| Bne                  (* line 88: bne a3, a1, again *)
| Sc                   (* line 90: sc.w.rl a3, a2, (a0) *)
| Bnez                 (* line 91: bnez a3, again *)
| Done.                (* line 92 *)

(** The conditional store succeeds when the hart still holds a reservation
    on the addressed word. *)
Definition sc_ok (h : hw) : bool :=
  match resv h with
  | Some r => r =? a0 h
  | None => false
  end.

Definition atomic_lr_sc (p : pc) (h : hw) : pc * hw * list access :=
  match p with
  | Again => (Li, set_a0 LOCK_ADDR h, [])
  | Li => (Lr, set_a1 0 h, [])
  | Lr =>
      (Bne,
       set_resv (Some (a0 h)) (set_a3 (mem h (a0 h)) h),
       [LoadReserved (a0 h) (mem h (a0 h))])
  | Bne => (if a3 h =? a1 h then Sc else Again, h, [])
  | Sc =>
      if sc_ok h
      then (Bnez,
            set_resv None
              (set_a3 0 (set_mem (store_word (mem h) (a0 h) (a2 h)) h)),
            [StoreConditional (a0 h) (a2 h) true])
      else (Bnez,
            set_resv None (set_a3 1 h),
            [StoreConditional (a0 h) (a2 h) false])
  | Bnez => (if a3 h =? 0 then Done else Again, h, [])
  | Done => (Done, h, [])
  end.

(** A call: control is at [again:], the log starts empty. *)
Definition call (h : hw) : conf pc := Conf Again h [].

Definition run : list action -> conf pc -> conf pc := exec atomic_lr_sc.

End Atomic.

(** ** The application: [main] (main.c lines 97-111) *)

(** The function an access is performed by. *)
Inductive origin : Type := In_main | In_atomic_lr_sc | In_handle_trap.

Module Main.

Inductive pc : Type :=
| Load_mtime              (* line 99, read of *IO_MTIME *)
| Store_cmp               (* line 99, write of *IO_MTIMECMP *)
| Printf                  (* line 103 *)
| Call (p : Atomic.pc)    (* line 105, inside atomic_lr_sc *)
| Exit.                   (* line 110 *)

Record frame : Type := Frame {
  at_ : pc;
  counter : Z
}.

Definition greeting : string :=
  String.append "Hello RISC-V on FPGA!" (String (Ascii.ascii_of_nat 10) EmptyString).

Definition main (f : frame) (h : hw) : frame * hw * list (origin * access) :=
  match at_ f with
  | Load_mtime =>
      (Frame Store_cmp (mtime h), h, [(In_main, Load64 IO_MTIME (mtime h))])
  | Store_cmp =>
      (Frame Printf (counter f),
       set_mtimecmp (add64 (counter f) 100) h,
       [(In_main, Store64 IO_MTIMECMP (add64 (counter f) 100))])
  | Printf =>
      (Frame (Call Atomic.Again) (counter f), h, [(In_main, Print greeting)])
  | Call Atomic.Done =>
      (Frame Exit (counter f), h, [])
  | Call p =>
      let '(p', h', evs) := Atomic.atomic_lr_sc p h in
      (Frame (Call p') (counter f), h', map (pair In_atomic_lr_sc) evs)
  | Exit => (f, h, [])
  end.

Definition entry : frame := Frame Load_mtime 0.

End Main.

(** ** The whole program on its single hart

    Normal-mode code is [main]; at any instruction boundary the hardware may
    deliver a trap, which runs [handle_trap] with further traps held off
    until it returns. *)

Module Sys.

Record state : Type := State {
  hw_ : hw;
  normal : Main.frame;
  trap : option Trap.frame;
  log : list (origin * access)
}.

Inductive action : Type :=
| Cpu                     (* the hart executes its next step *)
| Env (e : envact)        (* the environment moves *)
| Deliver (cause : Z).    (* the hardware raises a trap *)

Definition cpu_step (s : state) : state :=
  match trap s with
  | Some f =>
      match Trap.at_ f with
      | Trap.Return => State (hw_ s) (normal s) None (log s)
      | _ =>
          let '(f', h', evs) := Trap.handle_trap f (hw_ s) in
          State h' (normal s) (Some f')
                (log s ++ map (pair In_handle_trap) evs)
      end
  | None =>
      let '(f', h', evs) := Main.main (normal s) (hw_ s) in
      State h' f' None (log s ++ evs)
  end.

Definition step (a : action) (s : state) : state :=
  match a with
  | Cpu => cpu_step s
  | Env e => State (env e (hw_ s)) (normal s) (trap s) (log s)
  | Deliver c =>
      match trap s with
      | Some _ => s
      | None =>
          State (set_mcause c (hw_ s)) (normal s) (Some Trap.entry) (log s)
      end
  end.

Definition exec (sched : list action) (s : state) : state :=
  fold_left (fun s a => step a s) sched s.

(** Reset: [main] is about to start, no trap is being handled. *)
Definition boot (h : hw) : state := State h Main.entry None [].

End Sys.

(** ** Classifying accesses *)

(** A write of the pending-interrupt bit field. *)
Definition writes_mip (e : access) : bool :=
  match e with
  | CsrClear MIP _ => true
  | _ => false
  end.

(** A write of the timer compare register. *)
Definition writes_mtimecmp (e : access) : bool :=
  match e with
  | Store64 addr _ => addr =? IO_MTIMECMP
  | _ => false
  end.

(** The bytes [lo, lo + n) a memory access covers, if it is one. *)
Definition footprint (e : access) : option (Z * Z) :=
  match e with
  | Load64 addr _ | Store64 addr _ => Some (addr, 8)
  | LoadReserved addr _ | StoreConditional addr _ _ => Some (addr, 4)
  | CsrRead _ _ | CsrClear _ _ | Print _ => None
  end.

(** Whether an access reads or writes a byte of [addr, addr + size). *)
Definition touches (addr size : Z) (e : access) : bool :=
  match footprint e with
  | Some (lo, n) => (lo <? addr + size) && (addr <? lo + n)
  | None => false
  end.

(** A state used in the examples: everything zero but the given fields. *)
Definition hw_with (cause pending time a2v : Z) : hw :=
  mkHw cause pending time 0 (fun _ => 0) None 0 0 a2v 0.

(** ** Phases of the two resumable dispatches

    What is known at each program point of [handle_trap] when it was entered
    with the timer cause, resp. the external cause, on hardware [h0]. *)

Definition timer_phase (h0 : hw) (c : conf Trap.frame) : Prop :=
  let f := frame_of c in
  let h := hw_of c in
  let cleared := Z.land (mip h0) (Z.lnot MIP_TIMER) in
  let rd := CsrRead MCAUSE CAUSE_TIMER in
  let clr := CsrClear MIP MIP_TIMER in
  match Trap.at_ f with
  | Trap.Entry => mcause h = CAUSE_TIMER /\ log_of c = [] /\ mip h = mip h0
  | Trap.Switch =>
      Trap.cause f = CAUSE_TIMER /\ log_of c = [rd] /\ mip h = mip h0
  | Trap.Timer_csrc => log_of c = [rd] /\ mip h = mip h0
  | Trap.Timer_load => log_of c = [rd; clr] /\ mip h = cleared
  | Trap.Timer_store =>
      log_of c = [rd; clr; Load64 IO_MTIME (Trap.counter f)] /\ mip h = cleared
  | Trap.Return =>
      log_of c = [rd; clr; Load64 IO_MTIME (Trap.counter f);
                  Store64 IO_MTIMECMP (add64 (Trap.counter f) 1000)]
      /\ mip h = cleared
      /\ mtimecmp h = add64 (Trap.counter f) 1000
  | Trap.Ext_csrc | Trap.Halt _ => False
  end.

Definition external_phase (h0 : hw) (c : conf Trap.frame) : Prop :=
  let f := frame_of c in
  let h := hw_of c in
  let rd := CsrRead MCAUSE CAUSE_EXTERNAL in
  mtimecmp h = mtimecmp h0 /\
  match Trap.at_ f with
  | Trap.Entry => mcause h = CAUSE_EXTERNAL /\ log_of c = [] /\ mip h = mip h0
  | Trap.Switch =>
      Trap.cause f = CAUSE_EXTERNAL /\ log_of c = [rd] /\ mip h = mip h0
  | Trap.Ext_csrc => log_of c = [rd] /\ mip h = mip h0
  | Trap.Return =>
      log_of c = [rd; CsrClear MIP MIP_EXTERNAL]
      /\ mip h = Z.land (mip h0) (Z.lnot MIP_EXTERNAL)
  | Trap.Timer_csrc | Trap.Timer_load | Trap.Timer_store | Trap.Halt _ => False
  end.

(** The counter value a returned timer dispatch has read: the schedule splits
    at the step that performs the read of [*IO_MTIME], and [v] is what the
    counter holds at that moment. *)
Definition observed_at_rearm (h0 : hw) (sched : list action) (v : Z) : Prop :=
  exists before after,
    sched = before ++ Cpu :: after
    /\ Trap.at_ (frame_of (Trap.run before (Trap.enter h0))) = Trap.Timer_load
    /\ v = mtime (hw_of (Trap.run before (Trap.enter h0))).

(** How far a dispatch has come, in steps taken; [ret] is the number of steps
    after which the path that is being followed returns. *)
Definition progress (ret : nat) (p : Trap.pc) : nat :=
  match p with
  | Trap.Entry => 0
  | Trap.Switch => 1
  | Trap.Timer_csrc | Trap.Ext_csrc | Trap.Halt _ => 2
  | Trap.Timer_load => 3
  | Trap.Timer_store => 4
  | Trap.Return => ret
  end.

Definition is_cpu (a : action) : bool :=
  match a with
  | Cpu => true
  | Env _ => false
  end.

(** The number of steps the routine itself takes in a schedule. *)
Definition cpu_steps (sched : list action) : nat :=
  List.length (filter is_cpu sched).

(** What is known at each program point of a dispatch entered with a cause
    that is neither of the two interrupts. *)
Definition fault_phase (h0 : hw) (c : conf Trap.frame) : Prop :=
  let f := frame_of c in
  let h := hw_of c in
  let rd := CsrRead MCAUSE (mcause h0) in
  mcause h = mcause h0 /\ mip h = mip h0 /\ mtimecmp h = mtimecmp h0
  /\ mem h = mem h0
  /\ a0 h = a0 h0 /\ a1 h = a1 h0 /\ a2 h = a2 h0 /\ a3 h = a3 h0
  /\ match Trap.at_ f with
     | Trap.Entry => log_of c = []
     | Trap.Switch => Trap.cause f = mcause h0 /\ log_of c = [rd]
     | Trap.Halt site =>
         Trap.switch (mcause h0) = Trap.Halt site /\ log_of c = [rd]
     | Trap.Timer_csrc | Trap.Timer_load | Trap.Timer_store
     | Trap.Ext_csrc | Trap.Return => False
     end.

(** The environment alone moving, between two dispatches. *)
Definition idle (es : list envact) (h : hw) : hw :=
  fold_left (fun h e => env e h) es h.

(** ** Phases of the lock routine *)

(** The memory operations [atomic_lr_sc] performs when entered with [s] in
    a2: reservations on the lock word and conditional stores of [s] to it. *)
Definition lock_access (s : Z) (e : access) : Prop :=
  match e with
  | LoadReserved addr _ => addr = LOCK_ADDR
  | StoreConditional addr v _ => addr = LOCK_ADDR /\ v = s
  | CsrRead _ _ | CsrClear _ _ | Load64 _ _ | Store64 _ _ | Print _ => False
  end.

(** What is known at each instruction of a call entered on hardware [h0]. *)
Definition atomic_phase (h0 : hw) (c : conf Atomic.pc) : Prop :=
  let h := hw_of c in
  let lr := LoadReserved LOCK_ADDR in
  let sc := StoreConditional LOCK_ADDR (a2 h0) in
  a2 h = a2 h0
  /\ Forall (lock_access (a2 h0)) (log_of c)
  /\ match frame_of c with
     | Atomic.Again => True
     | Atomic.Li => a0 h = LOCK_ADDR
     | Atomic.Lr => a0 h = LOCK_ADDR /\ a1 h = 0
     | Atomic.Bne =>
         a0 h = LOCK_ADDR /\ a1 h = 0
         /\ exists before, log_of c = before ++ [lr (a3 h)]
     | Atomic.Sc =>
         a0 h = LOCK_ADDR /\ a3 h = 0
         /\ exists before, log_of c = before ++ [lr 0]
     | Atomic.Bnez =>
         exists before ok,
           log_of c = before ++ [lr 0; sc ok]
           /\ a3 h = (if ok then 0 else 1)
           /\ (ok = true -> mem h LOCK_ADDR = a2 h0)
     | Atomic.Done =>
         (exists before, log_of c = before ++ [lr 0; sc true])
         /\ mem h LOCK_ADDR = a2 h0
     end.

(** What is known along a call by a single participant that found the lock
    word at 0. *)
Definition acquire_phase (c : conf Atomic.pc) : Prop :=
  let h := hw_of c in
  match frame_of c with
  | Atomic.Again => mem h LOCK_ADDR = 0
  | Atomic.Li => a0 h = LOCK_ADDR /\ mem h LOCK_ADDR = 0
  | Atomic.Lr => a0 h = LOCK_ADDR /\ a1 h = 0 /\ mem h LOCK_ADDR = 0
  | Atomic.Bne =>
      a0 h = LOCK_ADDR /\ a1 h = 0 /\ a3 h = 0 /\ resv h = Some LOCK_ADDR
  | Atomic.Sc => a0 h = LOCK_ADDR /\ resv h = Some LOCK_ADDR
  | Atomic.Bnez => a3 h = 0
  | Atomic.Done => True
  end.

(** Instructions executed on the way from [again:] to the return. *)
Definition position (p : Atomic.pc) : nat :=
  match p with
  | Atomic.Again => 0
  | Atomic.Li => 1
  | Atomic.Lr => 2
  | Atomic.Bne => 3
  | Atomic.Sc => 4
  | Atomic.Bnez => 5
  | Atomic.Done => 6
  end.


(** ** The accesses of the whole program *)

(** Which function performs which access: the reads and writes that occur
    in the source, function by function. *)
Definition expected (oe : origin * access) : Prop :=
  match oe with
  | (In_main, Load64 addr _) => addr = IO_MTIME                  (* line 99 *)
  | (In_main, Store64 addr _) => addr = IO_MTIMECMP              (* line 99 *)
  | (In_main, Print _) => True                                   (* line 103 *)
  | (In_atomic_lr_sc, LoadReserved addr _) => addr = LOCK_ADDR   (* line 87 *)
  | (In_atomic_lr_sc, StoreConditional addr _ _) => addr = LOCK_ADDR
                                                                 (* line 90 *)
  | (In_handle_trap, CsrRead MCAUSE _) => True                   (* line 20 *)
  | (In_handle_trap, CsrClear MIP _) => True                 (* lines 26, 38 *)
  | (In_handle_trap, Load64 addr _) => addr = IO_MTIME           (* line 29 *)
  | (In_handle_trap, Store64 addr _) => addr = IO_MTIMECMP       (* line 29 *)
  | _ => False
  end.

(** A write of the pending field or of the compare register. *)
Definition writes_trap_register (e : access) : bool :=
  writes_mip e || writes_mtimecmp e.

(** Such a write performed outside [handle_trap]. *)
Definition normal_mode_write (oe : origin * access) : bool :=
  match fst oe with
  | In_handle_trap => false
  | In_main | In_atomic_lr_sc => writes_trap_register (snd oe)
  end.

Definition normal_mode_writes (l : list (origin * access)) : nat :=
  List.length (filter normal_mode_write l).

(** The pending field and the compare register written from inside
    [handle_trap] only. *)
Definition trap_only (l : list (origin * access)) : Prop :=
  Forall (fun oe => writes_trap_register (snd oe) = true ->
                    fst oe = In_handle_trap) l.

(** Whether [main] has executed its store of line 99. *)
Definition armed (p : Main.pc) : bool :=
  match p with
  | Main.Load_mtime | Main.Store_cmp => false
  | Main.Printf | Main.Call _ | Main.Exit => true
  end.

(** Whether [main] is inside [atomic_lr_sc], past the [la]. *)
Definition past_la (p : Main.pc) : bool :=
  match p with
  | Main.Call Atomic.Li | Main.Call Atomic.Lr | Main.Call Atomic.Bne
  | Main.Call Atomic.Sc | Main.Call Atomic.Bnez => true
  | _ => false
  end.

(** What holds of every state of the program started on hardware [h0]. *)
Definition sys_inv (h0 : hw) (s : Sys.state) : Prop :=
  Forall expected (Sys.log s)
  /\ (forall x, x <> LOCK_ADDR -> mem (Sys.hw_ s) x = mem h0 x)
  /\ normal_mode_writes (Sys.log s)
     = (if armed (Main.at_ (Sys.normal s)) then 1 else 0)%nat
  /\ (past_la (Main.at_ (Sys.normal s)) = true -> a0 (Sys.hw_ s) = LOCK_ADDR).

(** The global [lock_var] (line 16) lies at an address the linker chooses;
    its four bytes are apart from the two timer registers and from the word
    at 0xc0100000. *)
Definition lock_var_placed (lock_var : Z) : Prop :=
  (lock_var + 4 <= IO_MTIME \/ IO_MTIMECMP + 8 <= lock_var)
  /\ (lock_var + 4 <= LOCK_ADDR \/ LOCK_ADDR + 4 <= lock_var).

(** ** More about the lock routine *)

(** What is known along a call that found the lock word held (not 0). *)
Definition spin_phase (h0 : hw) (c : conf Atomic.pc) : Prop :=
  let h := hw_of c in
  mem h = mem h0
  /\ Forall (fun e => e = LoadReserved LOCK_ADDR (mem h0 LOCK_ADDR)) (log_of c)
  /\ match frame_of c with
     | Atomic.Again => True
     | Atomic.Li => a0 h = LOCK_ADDR
     | Atomic.Lr => a0 h = LOCK_ADDR /\ a1 h = 0
     | Atomic.Bne => a1 h = 0 /\ a3 h = mem h0 LOCK_ADDR
     | Atomic.Sc | Atomic.Bnez | Atomic.Done => False
     end.

(** Instructions executed since the last load-reserved was logged, counted
    from the [again:] that follows it; at the [bne] the load of the current
    round is already in the log. *)
Definition since_load (p : Atomic.pc) : Z :=
  match p with
  | Atomic.Again => 0
  | Atomic.Li => 1
  | Atomic.Lr => 2
  | Atomic.Bne => -1
  | Atomic.Sc | Atomic.Bnez | Atomic.Done => 0
  end.

(** What a call leaves untouched, and what it leaves in the registers its
    instructions write. *)
Definition atomic_frame (h0 : hw) (c : conf Atomic.pc) : Prop :=
  let h := hw_of c in
  mcause h = mcause h0 /\ mip h = mip h0 /\ mtimecmp h = mtimecmp h0
  /\ (forall x, x <> LOCK_ADDR -> mem h x = mem h0 x)
  /\ match frame_of c with
     | Atomic.Again => True
     | Atomic.Li => a0 h = LOCK_ADDR
     | Atomic.Lr | Atomic.Bne | Atomic.Sc => a0 h = LOCK_ADDR /\ a1 h = 0
     | Atomic.Bnez => a0 h = LOCK_ADDR /\ a1 h = 0 /\ resv h = None
     | Atomic.Done =>
         a0 h = LOCK_ADDR /\ a1 h = 0 /\ a3 h = 0 /\ resv h = None
     end.

(** What is known along a call that found the lock word at 0, whatever
    happens to the reservation. *)
Definition retry_phase (c : conf Atomic.pc) : Prop :=
  let h := hw_of c in
  match frame_of c with
  | Atomic.Again => mem h LOCK_ADDR = 0
  | Atomic.Li => a0 h = LOCK_ADDR /\ mem h LOCK_ADDR = 0
  | Atomic.Lr => a0 h = LOCK_ADDR /\ a1 h = 0 /\ mem h LOCK_ADDR = 0
  | Atomic.Bne =>
      a0 h = LOCK_ADDR /\ a1 h = 0 /\ a3 h = 0 /\ mem h LOCK_ADDR = 0
  | Atomic.Sc => a0 h = LOCK_ADDR /\ mem h LOCK_ADDR = 0
  | Atomic.Bnez => a3 h = 0 \/ mem h LOCK_ADDR = 0
  | Atomic.Done => True
  end.

(** Instructions still to execute before the routine is left, on a free
    lock word, if the reservation is not lost from here on: a conditional
    store that is going to fail costs a further round. *)
Definition todo (c : conf Atomic.pc) : nat :=
  let h := hw_of c in
  match frame_of c with
  | Atomic.Again => 6
  | Atomic.Li => 5
  | Atomic.Lr => 4
  | Atomic.Bne => if Atomic.sc_ok h then 3 else 9
  | Atomic.Sc => if Atomic.sc_ok h then 2 else 8
  | Atomic.Bnez => if a3 h =? 0 then 1 else 7
  | Atomic.Done => 0
  end.

(** A round of the loop that did not take the lock: the load found the
    word held, or the conditional store failed. *)
Inductive attempt : Type :=
| Busy (v : Z)
| Lost.

(** The accesses of such a round, [s] being the operand of the store. *)
Definition render (s : Z) (t : attempt) : list access :=
  match t with
  | Busy v => [LoadReserved LOCK_ADDR v]
  | Lost => [LoadReserved LOCK_ADDR 0; StoreConditional LOCK_ADDR s false]
  end.

Definition failed (t : attempt) : Prop :=
  match t with
  | Busy v => v <> 0
  | Lost => True
  end.

(** The accesses of the round in progress. *)
Definition pending (s : Z) (c : conf Atomic.pc) : list access :=
  match frame_of c with
  | Atomic.Again | Atomic.Li | Atomic.Lr => []
  | Atomic.Bne => [LoadReserved LOCK_ADDR (a3 (hw_of c))]
  | Atomic.Sc => [LoadReserved LOCK_ADDR 0]
  | Atomic.Bnez =>
      [LoadReserved LOCK_ADDR 0;
       StoreConditional LOCK_ADDR s (a3 (hw_of c) =? 0)]
  | Atomic.Done =>
      [LoadReserved LOCK_ADDR 0; StoreConditional LOCK_ADDR s true]
  end.

(** The log of a call: the rounds that failed, then the round in progress. *)
Definition rounds_phase (h0 : hw) (c : conf Atomic.pc) : Prop :=
  let h := hw_of c in
  a2 h = a2 h0
  /\ match frame_of c with
     | Atomic.Again => True
     | Atomic.Li => a0 h = LOCK_ADDR
     | Atomic.Lr | Atomic.Bne => a0 h = LOCK_ADDR /\ a1 h = 0
     | Atomic.Sc => a0 h = LOCK_ADDR /\ a3 h = 0
     | Atomic.Bnez => a3 h = 0 \/ a3 h = 1
     | Atomic.Done => True
     end
  /\ exists past,
       Forall failed past
       /\ log_of c = flat_map (render (a2 h0)) past ++ pending (a2 h0) c.

(** ** More about the trap dispatcher *)

(** The accesses that occur in [handle_trap]. *)
Definition trap_access (e : access) : Prop :=
  match e with
  | CsrRead MCAUSE _ => True
  | CsrClear MIP m => m = MIP_TIMER \/ m = MIP_EXTERNAL
  | Load64 addr _ => addr = IO_MTIME
  | Store64 addr _ => addr = IO_MTIMECMP
  | CsrRead MIP _ | CsrClear MCAUSE _
  | LoadReserved _ _ | StoreConditional _ _ _ | Print _ => False
  end.

(** What a dispatch leaves untouched, whatever the cause. *)
Definition trap_frame (h0 : hw) (c : conf Trap.frame) : Prop :=
  let h := hw_of c in
  let timer_done := Z.land (mip h0) (Z.lnot MIP_TIMER) in
  let external_done := Z.land (mip h0) (Z.lnot MIP_EXTERNAL) in
  mcause h = mcause h0 /\ mem h = mem h0
  /\ Forall trap_access (log_of c)
  /\ match Trap.at_ (frame_of c) with
     | Trap.Entry | Trap.Switch | Trap.Timer_csrc | Trap.Ext_csrc
     | Trap.Halt _ => mip h = mip h0
     | Trap.Timer_load | Trap.Timer_store => mip h = timer_done
     | Trap.Return => mip h = timer_done \/ mip h = external_done
     end.

(** The pending bit the dispatch of a resumable cause clears. *)
Definition mask_of (cause : Z) : Z :=
  if cause =? CAUSE_TIMER then MIP_TIMER else MIP_EXTERNAL.

(** The two causes [handle_trap] returns from. *)
Definition resumable (cause : Z) : Prop :=
  cause = CAUSE_TIMER \/ cause = CAUSE_EXTERNAL.

(** Steps a dispatch of a resumable cause takes. *)
Definition dispatch_length (cause : Z) : nat :=
  if cause =? CAUSE_TIMER then 5 else 3.

(** ** More about the whole program *)

(** A schedule without traps, as a schedule of the whole program. *)
Definition lift (a : action) : Sys.action :=
  match a with
  | Cpu => Sys.Cpu
  | Env e => Sys.Env e
  end.

(** The accesses performed outside [handle_trap]. *)
Definition is_normal (oe : origin * access) : bool :=
  match fst oe with
  | In_handle_trap => false
  | In_main | In_atomic_lr_sc => true
  end.

Definition normal_log (l : list (origin * access)) : list (origin * access) :=
  filter is_normal l.

(** The accesses of [main] itself (lines 99 and 103), [v] being the value
    it reads from the counter. *)
Definition main_script (v : Z) : list (origin * access) :=
  [(In_main, Load64 IO_MTIME v);
   (In_main, Store64 IO_MTIMECMP (add64 v 100));
   (In_main, Print Main.greeting)].

(** How many of them [main] has performed. *)
Definition stage (p : Main.pc) : nat :=
  match p with
  | Main.Load_mtime => 0
  | Main.Store_cmp => 1
  | Main.Printf => 2
  | Main.Call _ | Main.Exit => 3
  end.

Definition script_phase (s : Sys.state) : Prop :=
  exists rest,
    normal_log (Sys.log s)
    = firstn (stage (Main.at_ (Sys.normal s)))
             (main_script (Main.counter (Sys.normal s))) ++ rest
    /\ Forall (fun oe => fst oe = In_atomic_lr_sc) rest
    /\ (rest <> [] -> stage (Main.at_ (Sys.normal s)) = 3%nat).

Definition is_sc (oe : origin * access) : bool :=
  match snd oe with
  | StoreConditional _ _ _ => true
  | _ => false
  end.

(** What holds of every state of the program started with the lock word
    held. *)
Definition stuck_phase (h0 : hw) (s : Sys.state) : Prop :=
  let h := Sys.hw_ s in
  mem h = mem h0
  /\ Forall (fun oe => is_sc oe = false) (Sys.log s)
  /\ match Main.at_ (Sys.normal s) with
     | Main.Load_mtime | Main.Store_cmp | Main.Printf
     | Main.Call Atomic.Again => True
     | Main.Call Atomic.Li => a0 h = LOCK_ADDR
     | Main.Call Atomic.Lr => a0 h = LOCK_ADDR /\ a1 h = 0
     | Main.Call Atomic.Bne => a1 h = 0 /\ a3 h = mem h0 LOCK_ADDR
     | Main.Call Atomic.Sc | Main.Call Atomic.Bnez | Main.Call Atomic.Done
     | Main.Exit => False
     end.

(** What holds once a trap with a cause that is neither interrupt has been
    delivered in state [s]. *)
Definition frozen_phase (cause : Z) (s s' : Sys.state) : Prop :=
  let h := Sys.hw_ s in
  let h' := Sys.hw_ s' in
  let rd := (In_handle_trap, CsrRead MCAUSE cause) in
  Sys.normal s' = Sys.normal s
  /\ mip h' = mip h /\ mtimecmp h' = mtimecmp h /\ mem h' = mem h
  /\ match Sys.trap s' with
     | Some f =>
         match Trap.at_ f with
         | Trap.Entry => mcause h' = cause /\ Sys.log s' = Sys.log s
         | Trap.Switch => Trap.cause f = cause /\ Sys.log s' = Sys.log s ++ [rd]
         | Trap.Halt _ => Sys.log s' = Sys.log s ++ [rd]
         | Trap.Timer_csrc | Trap.Timer_load | Trap.Timer_store
         | Trap.Ext_csrc | Trap.Return => False
         end
     | None => False
     end.

(** The accesses of [atomic_lr_sc] in a run of [main] that found the lock
    word at 0 and kept its reservation, [s] being the operand of the
    conditional store. *)
Definition lock_part (s : Z) (p : Main.pc) : list (origin * access) :=
  match p with
  | Main.Call Atomic.Bne | Main.Call Atomic.Sc =>
      [(In_atomic_lr_sc, LoadReserved LOCK_ADDR 0)]
  | Main.Call Atomic.Bnez | Main.Call Atomic.Done | Main.Exit =>
      [(In_atomic_lr_sc, LoadReserved LOCK_ADDR 0);
       (In_atomic_lr_sc, StoreConditional LOCK_ADDR s true)]
  | _ => []
  end.

(** Steps [main] has taken on that run. *)
Definition main_position (p : Main.pc) : nat :=
  match p with
  | Main.Load_mtime => 0
  | Main.Store_cmp => 1
  | Main.Printf => 2
  | Main.Call q => 3 + position q
  | Main.Exit => 10
  end.

(** What is known at each point of that run. The operand of the
    conditional store is what a2 holds at that moment; nothing is assumed
    about where that value comes from. *)
Definition main_phase (s : Sys.state) : Prop :=
  let h := Sys.hw_ s in
  let p := Main.at_ (Sys.normal s) in
  let v := Main.counter (Sys.normal s) in
  Sys.trap s = None
  /\ Sys.log s = firstn (stage p) (main_script v) ++ lock_part (a2 h) p
  /\ ((2 <= stage p)%nat -> mtimecmp h = add64 v 100)
  /\ match p with
     | Main.Load_mtime | Main.Store_cmp | Main.Printf
     | Main.Call Atomic.Again => mem h LOCK_ADDR = 0
     | Main.Call Atomic.Li => a0 h = LOCK_ADDR /\ mem h LOCK_ADDR = 0
     | Main.Call Atomic.Lr =>
         a0 h = LOCK_ADDR /\ a1 h = 0 /\ mem h LOCK_ADDR = 0
     | Main.Call Atomic.Bne =>
         a0 h = LOCK_ADDR /\ a1 h = 0 /\ a3 h = 0 /\ resv h = Some LOCK_ADDR
     | Main.Call Atomic.Sc => a0 h = LOCK_ADDR /\ resv h = Some LOCK_ADDR
     | Main.Call Atomic.Bnez => a3 h = 0 /\ mem h LOCK_ADDR = a2 h
     | Main.Call Atomic.Done | Main.Exit => mem h LOCK_ADDR = a2 h
     end.

(** ** Two harts in the lock routine

    Two copies of [atomic_lr_sc], each with its own registers and its own
    reservation, on one memory. The harts take turns in any order, one
    instruction at a time; a successful [sc.w] of one hart is seen by the
    other, which loses a reservation it holds on the word written. *)

Module Duo.

Inductive who : Type := Hart0 | Hart1.

Record state : Type := State {
  shared : Z -> Z;             (* the memory both harts address *)
  hart0 : conf Atomic.pc;
  hart1 : conf Atomic.pc
}.

(** What a store that went through does to the reservation of another
    hart. *)
Definition snoop (e : access) (h : hw) : hw :=
  match e with
  | StoreConditional addr _ true =>
      match resv h with
      | Some r => if r =? addr then set_resv None h else h
      | None => h
      end
  | _ => h
  end.

Definition snoops (evs : list access) (c : conf Atomic.pc) : conf Atomic.pc :=
  Conf (frame_of c) (fold_left (fun h e => snoop e h) evs (hw_of c)) (log_of c).

(** One instruction of the hart [c] on the memory [m], the hart [o] looking
    on: the memory afterwards, and the two harts. *)
Definition move (m : Z -> Z) (c o : conf Atomic.pc)
  : (Z -> Z) * conf Atomic.pc * conf Atomic.pc :=
  let '(p, h, evs) := Atomic.atomic_lr_sc (frame_of c) (set_mem m (hw_of c)) in
  (mem h, Conf p h (log_of c ++ evs), snoops evs o).

Definition turn (w : who) (d : state) : state :=
  match w with
  | Hart0 =>
      let '(m, c, o) := move (shared d) (hart0 d) (hart1 d) in State m c o
  | Hart1 =>
      let '(m, c, o) := move (shared d) (hart1 d) (hart0 d) in State m o c
  end.

Definition run (sched : list who) (d : state) : state :=
  fold_left (fun d w => turn w d) sched d.

(** Both harts have just called the routine. *)
Definition start (m : Z -> Z) (h0 h1 : hw) : state :=
  State m (Atomic.call h0) (Atomic.call h1).

Definition is_hart0 (w : who) : bool :=
  match w with Hart0 => true | Hart1 => false end.

Definition is_hart1 (w : who) : bool :=
  match w with Hart0 => false | Hart1 => true end.

(** The number of instructions each hart executes in a schedule. *)
Definition turns0 (sched : list who) : nat :=
  List.length (filter is_hart0 sched).

Definition turns1 (sched : list who) : nat :=
  List.length (filter is_hart1 sched).

(** The harts strictly alternating, [n] instructions each. *)
Fixpoint lockstep (n : nat) : list who :=
  match n with
  | O => []
  | S k => Hart0 :: Hart1 :: lockstep k
  end.

End Duo.

(** A hart whose conditional store went through. *)
Definition succeeded (c : conf Atomic.pc) : bool :=
  match frame_of c with
  | Atomic.Done => true
  | Atomic.Bnez => a3 (hw_of c) =? 0
  | _ => false
  end.

(** A bound on the instructions the hart [c] still executes before it
    leaves the routine, when both harts store 0: its conditional store can
    fail once, and only before the store of the other hart [o] went
    through. *)
Definition slack (o : conf Atomic.pc) : nat :=
  if succeeded o then 0 else 6.

Definition budget (c o : conf Atomic.pc) : nat :=
  match frame_of c with
  | Atomic.Again => 6 + slack o
  | Atomic.Li => 5 + slack o
  | Atomic.Lr => 4 + slack o
  | Atomic.Bne => if Atomic.sc_ok (hw_of c) then 3 + slack o else 9
  | Atomic.Sc => if Atomic.sc_ok (hw_of c) then 2 + slack o else 8
  | Atomic.Bnez => if a3 (hw_of c) =? 0 then 1 else 7
  | Atomic.Done => 0
  end.

(** The last access of the hart was a conditional store of 0 to the lock
    word that went through. *)
Definition took (c : conf Atomic.pc) : Prop :=
  exists l, log_of c = l ++ [StoreConditional LOCK_ADDR 0 true].

(** What is known of the hart [c] next to the hart [o] when both entered
    with 0 in a2. *)
Definition duo_side (c o : conf Atomic.pc) : Prop :=
  let h := hw_of c in
  a2 h = 0
  /\ match frame_of c with
     | Atomic.Again => True
     | Atomic.Li => a0 h = LOCK_ADDR
     | Atomic.Lr => a0 h = LOCK_ADDR /\ a1 h = 0
     | Atomic.Bne =>
         a0 h = LOCK_ADDR /\ a3 h = a1 h
         /\ (Atomic.sc_ok h = false -> succeeded o = true)
     | Atomic.Sc =>
         a0 h = LOCK_ADDR /\ (Atomic.sc_ok h = false -> succeeded o = true)
     | Atomic.Bnez =>
         (a3 h <> 0 -> succeeded o = true) /\ (a3 h = 0 -> took c)
     | Atomic.Done => took c
     end.

Definition duo_phase (d : Duo.state) : Prop :=
  Duo.shared d LOCK_ADDR = 0
  /\ duo_side (Duo.hart0 d) (Duo.hart1 d)
  /\ duo_side (Duo.hart1 d) (Duo.hart0 d).

(** ** Proof steps used more than once *)

(** Simplify the left-hand side of an equation only. *)
Ltac simpl_lhs :=
  match goal with
  | |- ?L = ?R => let L' := eval simpl in L in change (L' = R)
  end.

(** Closes the goals left by one step of the program: the log has grown by
    an explicit list of accesses. *)
Ltac step_log :=
  repeat match goal with
         | |- Forall _ (_ ++ _) => apply Forall_app; split; [assumption|]
         | |- Forall _ (_ :: _) => constructor
         | |- Forall _ [] => constructor
         | |- expected _ => simpl; auto
         end.

(** * Properties *)

(** ** Schedules *)

Section RunFacts.
Context {F : Type}.
Variable cpu : F -> hw -> F * hw * list access.

Lemma exec_cons a l (c : conf F) : exec cpu (a :: l) c = exec cpu l (act cpu a c).
Proof. reflexivity. Qed.

Lemma exec_app l1 l2 (c : conf F) :
  exec cpu (l1 ++ l2) c = exec cpu l2 (exec cpu l1 c).
Proof. unfold exec. apply fold_left_app. Qed.

Lemma exec_snoc l a (c : conf F) :
  exec cpu (l ++ [a]) c = act cpu a (exec cpu l c).
Proof. rewrite exec_app. reflexivity. Qed.

(** A property kept by every action holds along every schedule. *)
Lemma exec_invariant (P : conf F -> Prop) :
  (forall a c, P c -> P (act cpu a c)) ->
  forall sched c, P c -> P (exec cpu sched c).
Proof.
  intros Hstep sched. induction sched as [|a l IH]; intros c Hc.
  - exact Hc.
  - rewrite exec_cons. apply IH, Hstep, Hc.
Qed.

(** The same along the schedules made of the actions a test [ok] accepts. *)
Lemma exec_invariant_on (ok : action -> bool) (P : conf F -> Prop) :
  (forall a c, ok a = true -> P c -> P (act cpu a c)) ->
  forall sched c, forallb ok sched = true -> P c -> P (exec cpu sched c).
Proof.
  intros Hstep sched. induction sched as [|a l IH]; intros c Hok Hc.
  - exact Hc.
  - simpl in Hok. apply andb_prop in Hok. destruct Hok as (Ha & Hl).
    rewrite exec_cons. apply IH; [exact Hl|]. apply Hstep; assumption.
Qed.


End RunFacts.

(** ** Bits of the pending field *)

Lemma MIP_TIMER_bit : MIP_TIMER = 2 ^ 7.
Proof. reflexivity. Qed.

Lemma MIP_EXTERNAL_bit : MIP_EXTERNAL = 2 ^ 11.
Proof. reflexivity. Qed.

(** [csrc] with a one-bit mask clears that bit and keeps the others. *)
Lemma clear_bit_spec (x n i : Z) :
  0 <= n -> 0 <= i ->
  Z.testbit (Z.land x (Z.lnot (2 ^ n))) i
  = if i =? n then false else Z.testbit x i.
Proof.
  intros Hn Hi.
  rewrite Z.land_spec, Z.lnot_spec by assumption.
  rewrite Z.pow2_bits_eqb by assumption.
  destruct (Z.eqb_spec i n) as [->|Hne].
  - rewrite Z.eqb_refl. apply andb_false_r.
  - replace (n =? i) with false by (symmetry; apply Z.eqb_neq; congruence).
    apply andb_true_r.
Qed.

Lemma clear_bit_other (x n i : Z) :
  0 <= n -> i <> n ->
  Z.testbit (Z.land x (Z.lnot (2 ^ n))) i = Z.testbit x i.
Proof.
  intros Hn Hne. destruct (Z.neg_nonneg_cases i) as [Hneg|Hpos].
  - now rewrite !Z.testbit_neg_r.
  - rewrite clear_bit_spec by assumption.
    destruct (Z.eqb_spec i n); [contradiction|reflexivity].
Qed.

Lemma clear_bit_self (x n : Z) :
  0 <= n -> Z.testbit (Z.land x (Z.lnot (2 ^ n))) n = false.
Proof.
  intros Hn. rewrite clear_bit_spec by assumption. now rewrite Z.eqb_refl.
Qed.

Lemma add64_exact (v k : Z) : 0 <= v + k < 2 ^ 64 -> add64 v k = v + k.
Proof. intros H. unfold add64, wrap64. apply Z.mod_small. exact H. Qed.

(** ** The timer dispatch *)

Lemma timer_phase_enter h0 :
  mcause h0 = CAUSE_TIMER -> timer_phase h0 (Trap.enter h0).
Proof. intros H. unfold timer_phase. simpl. auto. Qed.

Lemma timer_phase_act h0 a c :
  timer_phase h0 c -> timer_phase h0 (act Trap.handle_trap a c).
Proof.
  destruct c as [[p cz k] h lg]. unfold timer_phase.
  destruct a as [|[d|]]; simpl.
  - unfold Trap.handle_trap; destruct p; simpl; intros H.
    all: repeat match goal with H : _ /\ _ |- _ => destruct H end.
    all: try contradiction.
    all: subst; simpl.
    all: try (repeat split; congruence).
  - destruct p; simpl; tauto.
  - destruct p; simpl; tauto.
Qed.

Lemma timer_phase_run h0 sched :
  mcause h0 = CAUSE_TIMER -> timer_phase h0 (Trap.run sched (Trap.enter h0)).
Proof.
  intros H. unfold Trap.run. apply exec_invariant.
  - intros a c. apply timer_phase_act.
  - apply timer_phase_enter, H.
Qed.

Lemma cpu_steps_snoc l a :
  cpu_steps (l ++ [a]) = (cpu_steps l + if is_cpu a then 1 else 0)%nat.
Proof.
  unfold cpu_steps. rewrite filter_app, length_app. simpl.
  destruct (is_cpu a); reflexivity.
Qed.

Lemma cpu_steps_steps n : cpu_steps (steps n) = n.
Proof.
  unfold steps. induction n as [|n IH]; [reflexivity|].
  unfold cpu_steps in *. simpl. now rewrite IH.
Qed.

(** The timer dispatch advances by one program point per step, so it has
    returned as soon as it was given five steps. *)
Lemma timer_progress h0 sched :
  mcause h0 = CAUSE_TIMER ->
  progress 5 (Trap.at_ (frame_of (Trap.run sched (Trap.enter h0))))
  = Nat.min 5 (cpu_steps sched).
Proof.
  intros Hc. induction sched as [|a l IH] using rev_ind; [reflexivity|].
  unfold Trap.run in *. rewrite exec_snoc, cpu_steps_snoc.
  pose proof (timer_phase_run h0 l Hc) as Hph. unfold Trap.run in Hph.
  destruct (exec Trap.handle_trap l (Trap.enter h0)) as [[p cz k] h lg].
  unfold timer_phase in Hph.
  change (progress 5 p = Nat.min 5 (cpu_steps l)) in IH.
  destruct a as [|e]; cbn [is_cpu].
  - destruct p; simpl_lhs; cbn [progress] in IH; simpl in Hph;
      try contradiction; try lia.
    destruct Hph as (-> & _). simpl_lhs. lia.
  - simpl_lhs. lia.
Qed.

Lemma timer_observed h0 sched :
  mcause h0 = CAUSE_TIMER ->
  let c := Trap.run sched (Trap.enter h0) in
  Trap.at_ (frame_of c) = Trap.Timer_store \/ Trap.at_ (frame_of c) = Trap.Return ->
  observed_at_rearm h0 sched (Trap.counter (frame_of c)).
Proof.
  intros Hc. induction sched as [|a l IH] using rev_ind.
  - simpl. intros [H|H]; discriminate H.
  - simpl in *. unfold Trap.run in *. rewrite exec_snoc.
    pose proof (timer_phase_run h0 l Hc) as Hph. unfold Trap.run in Hph.
    assert (Hext : forall v, observed_at_rearm h0 l v ->
                             observed_at_rearm h0 (l ++ [a]) v).
    { intros v (b & r & -> & Hat & Hv). exists b, (r ++ [a]).
      rewrite <- app_assoc. auto. }
    remember (exec Trap.handle_trap l (Trap.enter h0)) as c eqn:Ec.
    destruct c as [[p cz k] h lg]. unfold timer_phase in Hph. simpl in Hph, IH.
    destruct a as [|e]; simpl.
    + unfold Trap.handle_trap; destruct p; simpl in *; try contradiction.
      * intros [H|H]; discriminate H.
      * destruct Hph as (-> & _). simpl. intros [H|H]; discriminate H.
      * intros [H|H]; discriminate H.
      * intros _. exists l, []. unfold Trap.run. rewrite <- Ec. auto.
      * intros _. apply Hext, IH. now left.
      * intros _. apply Hext, IH. now right.
    + intros H. apply Hext, IH, H.
Qed.

Lemma timer_returned_iff h0 sched :
  mcause h0 = CAUSE_TIMER ->
  Trap.returned (Trap.run sched (Trap.enter h0)) <-> (5 <= cpu_steps sched)%nat.
Proof.
  intros Hc.
  pose proof (timer_progress h0 sched Hc) as Hp.
  pose proof (timer_phase_run h0 sched Hc) as Hph.
  unfold Trap.returned, timer_phase in *.
  destruct (Trap.at_ (frame_of (Trap.run sched (Trap.enter h0))));
    cbn [progress] in Hp; try contradiction;
    split; intros H; try discriminate H; try reflexivity; lia.
Qed.

(** C1. A dispatch entered with cause 0x80000007, however the counter moves
    while it runs: it has returned exactly when it has taken five steps;
    once it has returned, it has read the cause, cleared mask 1<<7 in mip,
    read the counter once and written the compare register once; bit 7 of
    the pending field is clear and every other bit is as at entry; the
    compare register holds the counter value read at line 29 plus 1000, the
    sum being the [uint64_t] one of the C code (the integer sum whenever
    that fits in 64 bits). *)
Theorem timer_dispatch_clears_and_rearms :
  forall (h0 : hw) (sched : list action),
    mcause h0 = CAUSE_TIMER ->
    let c := Trap.run sched (Trap.enter h0) in
    (Trap.returned c <-> (5 <= cpu_steps sched)%nat)
    /\ (Trap.returned c ->
        exists v,
          observed_at_rearm h0 sched v
          /\ log_of c = [CsrRead MCAUSE CAUSE_TIMER; CsrClear MIP (2 ^ 7);
                         Load64 IO_MTIME v; Store64 IO_MTIMECMP (add64 v 1000)]
          /\ Z.testbit (mip (hw_of c)) 7 = false
          /\ (forall i, i <> 7 ->
                        Z.testbit (mip (hw_of c)) i = Z.testbit (mip h0) i)
          /\ mtimecmp (hw_of c) = add64 v 1000
          /\ (0 <= v -> v + 1000 < 2 ^ 64 -> mtimecmp (hw_of c) = v + 1000)).
Proof.
  intros h0 sched Hc c.
  split; [apply timer_returned_iff, Hc|]. intros Hret.
  pose proof (timer_phase_run h0 sched Hc) as Hph. fold c in Hph.
  pose proof (timer_observed h0 sched Hc (or_intror Hret)) as Hobs.
  fold c in Hobs.
  unfold timer_phase, Trap.returned in *. rewrite Hret in Hph.
  destruct Hph as (Hlog & Hmip & Hcmp).
  exists (Trap.counter (frame_of c)). rewrite Hmip, Hcmp, MIP_TIMER_bit.
  repeat split; try assumption.
  - apply clear_bit_self. lia.
  - intros i Hi. apply clear_bit_other; [lia|exact Hi].
  - intros H1 H2. apply add64_exact. lia.
Qed.

(** The scenario of the specification: counter at 5000, compare register
    unset, timer and external interrupts both pending; the timer dispatch
    leaves 6000 in the compare register and only the external bit pending. *)
Lemma timer_dispatch_scenario :
  let h0 := hw_with CAUSE_TIMER 0x880 5000 0 in
  let c := Trap.run (steps 5) (Trap.enter h0) in
  mcause h0 = CAUSE_TIMER
  /\ Trap.returned c
  /\ mtimecmp (hw_of c) = 6000
  /\ Z.testbit (mip (hw_of c)) 7 = false
  /\ Z.testbit (mip (hw_of c)) 11 = Z.testbit (mip h0) 11.
Proof.
  intros h0 c.
  destruct (timer_dispatch_clears_and_rearms h0 (steps 5) eq_refl)
    as (Hiff & Hpost).
  assert (Hret : Trap.returned c) by (apply Hiff, le_n).
  destruct (Hpost Hret) as (v & _ & Hlog & Hbit & Hoth & _ & Hcmp).
  fold c in Hlog, Hbit, Hoth, Hcmp.
  assert (Hv : v = 5000).
  { assert (Hrun : nth 2 (log_of c) (Print EmptyString) = Load64 IO_MTIME 5000)
      by reflexivity.
    rewrite Hlog in Hrun. injection Hrun as Hv. exact Hv. }
  subst v.
  split; [reflexivity|]. split; [exact Hret|]. split.
  - apply Hcmp; lia.
  - split; [exact Hbit|]. apply Hoth. lia.
Defined.

(** ** The external-interrupt dispatch *)

Lemma external_phase_enter h0 :
  mcause h0 = CAUSE_EXTERNAL -> external_phase h0 (Trap.enter h0).
Proof. intros H. unfold external_phase. simpl. auto. Qed.

Lemma external_phase_act h0 a c :
  external_phase h0 c -> external_phase h0 (act Trap.handle_trap a c).
Proof.
  destruct c as [[p cz k] h lg]. unfold external_phase.
  destruct a as [|[d|]]; simpl.
  - unfold Trap.handle_trap; destruct p; simpl; intros H.
    all: repeat match goal with H : _ /\ _ |- _ => destruct H end.
    all: try contradiction.
    all: subst; simpl.
    all: try (repeat split; congruence).
  - destruct p; simpl; tauto.
  - destruct p; simpl; tauto.
Qed.

Lemma external_phase_run h0 sched :
  mcause h0 = CAUSE_EXTERNAL ->
  external_phase h0 (Trap.run sched (Trap.enter h0)).
Proof.
  intros H. unfold Trap.run. apply exec_invariant.
  - intros a c. apply external_phase_act.
  - apply external_phase_enter, H.
Qed.

Lemma external_progress h0 sched :
  mcause h0 = CAUSE_EXTERNAL ->
  progress 3 (Trap.at_ (frame_of (Trap.run sched (Trap.enter h0))))
  = Nat.min 3 (cpu_steps sched).
Proof.
  intros Hc. induction sched as [|a l IH] using rev_ind; [reflexivity|].
  unfold Trap.run in *. rewrite exec_snoc, cpu_steps_snoc.
  pose proof (external_phase_run h0 l Hc) as Hph. unfold Trap.run in Hph.
  destruct (exec Trap.handle_trap l (Trap.enter h0)) as [[p cz k] h lg].
  unfold external_phase in Hph. destruct Hph as (_ & Hph).
  change (progress 3 p = Nat.min 3 (cpu_steps l)) in IH.
  destruct a as [|e]; cbn [is_cpu].
  - destruct p; simpl_lhs; cbn [progress] in IH; simpl in Hph;
      try contradiction; try lia.
    destruct Hph as (-> & _). simpl_lhs. lia.
  - simpl_lhs. lia.
Qed.

Lemma external_returned_iff h0 sched :
  mcause h0 = CAUSE_EXTERNAL ->
  Trap.returned (Trap.run sched (Trap.enter h0)) <-> (3 <= cpu_steps sched)%nat.
Proof.
  intros Hc.
  pose proof (external_progress h0 sched Hc) as Hp.
  pose proof (external_phase_run h0 sched Hc) as Hph.
  unfold Trap.returned, external_phase in *. destruct Hph as (_ & Hph).
  destruct (Trap.at_ (frame_of (Trap.run sched (Trap.enter h0))));
    cbn [progress] in Hp; try contradiction;
    split; intros H; try discriminate H; try reflexivity; lia.
Qed.

(** C5. A dispatch entered with cause 0x8000000b, however the counter moves
    while it runs: it has returned exactly when it has taken three steps;
    once it has returned, all it has done is read the cause and clear mask
    1<<11 in mip; bit 11 of the pending field is clear, every other bit is
    as at entry, and the compare register holds what it held at entry. *)
Theorem external_dispatch_clears_only_its_bit :
  forall (h0 : hw) (sched : list action),
    mcause h0 = CAUSE_EXTERNAL ->
    let c := Trap.run sched (Trap.enter h0) in
    (Trap.returned c <-> (3 <= cpu_steps sched)%nat)
    /\ (Trap.returned c ->
        log_of c = [CsrRead MCAUSE CAUSE_EXTERNAL; CsrClear MIP (2 ^ 11)]
        /\ Z.testbit (mip (hw_of c)) 11 = false
        /\ (forall i, i <> 11 ->
                      Z.testbit (mip (hw_of c)) i = Z.testbit (mip h0) i)
        /\ mtimecmp (hw_of c) = mtimecmp h0).
Proof.
  intros h0 sched Hc c.
  split; [apply external_returned_iff, Hc|]. intros Hret.
  pose proof (external_phase_run h0 sched Hc) as Hph. fold c in Hph.
  unfold external_phase in Hph. destruct Hph as (Hcmp & Hph).
  unfold Trap.returned in Hret. rewrite Hret in Hph.
  destruct Hph as (Hlog & Hmip).
  rewrite Hmip, MIP_EXTERNAL_bit. repeat split; try assumption.
  - apply clear_bit_self. lia.
  - intros i Hi. apply clear_bit_other; [lia|exact Hi].
Qed.

(** Timer and external interrupts pending, compare register at 6000: the
    external dispatch leaves the timer bit pending and the compare register
    at 6000. *)
Lemma external_dispatch_scenario :
  let h0 := set_mtimecmp 6000 (hw_with CAUSE_EXTERNAL 0x880 5000 0) in
  let c := Trap.run [Cpu; Env (Tick 7); Cpu; Cpu] (Trap.enter h0) in
  mcause h0 = CAUSE_EXTERNAL
  /\ Trap.returned c
  /\ Z.testbit (mip (hw_of c)) 11 = false
  /\ Z.testbit (mip (hw_of c)) 7 = true
  /\ mtimecmp (hw_of c) = 6000.
Proof.
  intros h0 c.
  destruct (external_dispatch_clears_only_its_bit h0
              [Cpu; Env (Tick 7); Cpu; Cpu] eq_refl)
    as (Hiff & Hpost).
  assert (Hret : Trap.returned c) by (apply Hiff, le_n).
  destruct (Hpost Hret) as (_ & Hbit & Hoth & Hcmp).
  fold c in Hbit, Hoth, Hcmp.
  split; [reflexivity|]. split; [exact Hret|]. split; [exact Hbit|]. split.
  - rewrite Hoth by lia. reflexivity.
  - rewrite Hcmp. reflexivity.
Defined.

(** ** Dispatches that halt *)

(** Every cause other than the two interrupts selects a [while (1);]. *)
Lemma switch_fault (c : Z) :
  c <> CAUSE_TIMER -> c <> CAUSE_EXTERNAL ->
  exists site, Trap.switch c = Trap.Halt site.
Proof.
  intros Ht He. unfold Trap.switch.
  destruct (Z.eqb_spec c CAUSE_TIMER); [contradiction|].
  destruct (Z.eqb_spec c CAUSE_EXTERNAL); [contradiction|].
  repeat match goal with
         | |- context [if ?b then _ else _] => destruct b
         end; eauto.
Qed.

(** The loop each of the exception codes 0..8 ends in. *)
Lemma switch_exceptions :
  map Trap.switch [0; 1; 2; 3; 4; 5; 6; 7; 8]
  = map Trap.Halt
      [Trap.Fetch_fault; Trap.Fetch_fault; Trap.Resumable_fault;
       Trap.Breakpoint; Trap.Resumable_fault; Trap.Resumable_fault;
       Trap.Resumable_fault; Trap.Resumable_fault; Trap.Ecall].
Proof. reflexivity. Qed.

Lemma fault_phase_enter h0 : fault_phase h0 (Trap.enter h0).
Proof. unfold fault_phase. simpl. tauto. Qed.

Lemma fault_phase_act h0 a c :
  mcause h0 <> CAUSE_TIMER -> mcause h0 <> CAUSE_EXTERNAL ->
  fault_phase h0 c -> fault_phase h0 (act Trap.handle_trap a c).
Proof.
  intros Ht He. destruct (switch_fault _ Ht He) as (site & Hsw).
  destruct c as [[p cz k] h lg]. unfold fault_phase.
  destruct a as [|[d|]]; simpl.
  - unfold Trap.handle_trap; destruct p; simpl; intros H.
    all: repeat match goal with H : _ /\ _ |- _ => destruct H end.
    all: try contradiction.
    all: subst; simpl.
    all: try rewrite Hsw; simpl; repeat split; congruence.
  - destruct p; simpl; tauto.
  - destruct p; simpl; tauto.
Qed.

Lemma fault_phase_run h0 sched :
  mcause h0 <> CAUSE_TIMER -> mcause h0 <> CAUSE_EXTERNAL ->
  fault_phase h0 (Trap.run sched (Trap.enter h0)).
Proof.
  intros Ht He. unfold Trap.run. apply exec_invariant.
  - intros a c. apply fault_phase_act; assumption.
  - apply fault_phase_enter.
Qed.

Lemma fault_progress h0 sched :
  mcause h0 <> CAUSE_TIMER -> mcause h0 <> CAUSE_EXTERNAL ->
  progress 2 (Trap.at_ (frame_of (Trap.run sched (Trap.enter h0))))
  = Nat.min 2 (cpu_steps sched).
Proof.
  intros Ht He. destruct (switch_fault _ Ht He) as (site & Hsw).
  induction sched as [|a l IH] using rev_ind; [reflexivity|].
  unfold Trap.run in *. rewrite exec_snoc, cpu_steps_snoc.
  pose proof (fault_phase_run h0 l Ht He) as Hph. unfold Trap.run in Hph.
  destruct (exec Trap.handle_trap l (Trap.enter h0)) as [[p cz k] h lg].
  unfold fault_phase in Hph.
  destruct Hph as (_ & _ & _ & _ & _ & _ & _ & _ & Hph).
  change (progress 2 p = Nat.min 2 (cpu_steps l)) in IH.
  destruct a as [|e]; cbn [is_cpu].
  - destruct p; simpl_lhs; cbn [progress] in IH; simpl in Hph;
      try contradiction; try lia.
    destruct Hph as (-> & _). rewrite Hsw. simpl_lhs. lia.
  - simpl_lhs. lia.
Qed.

(** A halted dispatch stays where it is: its steps change nothing at all and
    add nothing to the log. *)
Lemma halted_forever (c : conf Trap.frame) (more : list action) :
  Trap.halted c ->
  let c' := Trap.run more c in
  frame_of c' = frame_of c
  /\ log_of c' = log_of c
  /\ act Trap.handle_trap Cpu c' = c'.
Proof.
  intros (site & Hs). simpl.
  assert (H : frame_of (Trap.run more c) = frame_of c
              /\ log_of (Trap.run more c) = log_of c).
  { unfold Trap.run.
    apply (exec_invariant Trap.handle_trap
             (fun c' => frame_of c' = frame_of c /\ log_of c' = log_of c));
      [|auto].
    intros a [f h lg] (Hf & Hl). simpl in Hf, Hl. subst f lg.
    destruct a as [|e]; simpl; [|auto].
    unfold Trap.handle_trap. rewrite Hs. simpl. rewrite app_nil_r. auto. }
  destruct H as (Hf & Hl). repeat split; try assumption.
  destruct (Trap.run more c) as [f h lg]. simpl in Hf. subst f.
  simpl. unfold Trap.handle_trap. rewrite Hs. simpl. now rewrite app_nil_r.
Qed.

(** C4. A dispatch entered with any cause other than 0x80000007 and
    0x8000000b (the exception codes 0..8 and every unrecognised value),
    along every schedule: it has never returned; after its second step it
    sits in one of the [while (1);] loops, and from then on its steps leave
    the whole configuration as it is; all it ever performs is the read of
    mcause; the pending field, the compare register, memory and the
    registers a0..a3 stay as they were at entry. *)
Theorem fault_dispatch_never_returns :
  forall (h0 : hw) (sched : list action),
    mcause h0 <> CAUSE_TIMER ->
    mcause h0 <> CAUSE_EXTERNAL ->
    let c := Trap.run sched (Trap.enter h0) in
    ~ Trap.returned c
    /\ ((2 <= cpu_steps sched)%nat -> Trap.halted c)
    /\ (Trap.halted c ->
        forall more,
          let c' := Trap.run more c in
          frame_of c' = frame_of c
          /\ log_of c' = log_of c
          /\ act Trap.handle_trap Cpu c' = c')
    /\ Forall (fun e => e = CsrRead MCAUSE (mcause h0)) (log_of c)
    /\ mip (hw_of c) = mip h0
    /\ mtimecmp (hw_of c) = mtimecmp h0
    /\ mem (hw_of c) = mem h0
    /\ (a0 (hw_of c), a1 (hw_of c), a2 (hw_of c), a3 (hw_of c))
       = (a0 h0, a1 h0, a2 h0, a3 h0).
Proof.
  intros h0 sched Ht He c.
  pose proof (fault_phase_run h0 sched Ht He) as Hph.
  pose proof (fault_progress h0 sched Ht He) as Hp.
  fold c in Hph, Hp. unfold fault_phase in Hph.
  destruct Hph as (_ & Hmip & Hcmp & Hmem & H0 & H1 & H2 & H3 & Hat).
  split; [|split; [|split; [|split]]].
  - unfold Trap.returned. intros Hr. rewrite Hr in Hat. exact Hat.
  - intros Hn. rewrite Nat.min_l in Hp by exact Hn. unfold Trap.halted.
    destruct (Trap.at_ (frame_of c)); cbn [progress] in Hp;
      try discriminate Hp; try contradiction; eauto.
  - intros Hh more. apply halted_forever, Hh.
  - destruct (Trap.at_ (frame_of c)); try contradiction.
    + rewrite Hat. constructor.
    + destruct Hat as (_ & ->). repeat constructor.
    + destruct Hat as (_ & ->). repeat constructor.
  - repeat split; try assumption. congruence.
Qed.

(** An illegal instruction (code 2) with both interrupts pending: after ten
    steps the dispatcher still has not returned, it sits in a loop, and ten
    further steps leave it there with the same log. *)
Lemma fault_dispatch_scenario :
  let h0 := hw_with 2 0x880 5000 0 in
  let c := Trap.run (steps 10) (Trap.enter h0) in
  mcause h0 <> CAUSE_TIMER
  /\ mcause h0 <> CAUSE_EXTERNAL
  /\ ~ Trap.returned c
  /\ Trap.halted c
  /\ log_of (Trap.run (steps 10) c) = [CsrRead MCAUSE 2]
  /\ mip (hw_of c) = 0x880.
Proof.
  intros h0 c.
  assert (Ht : mcause h0 <> CAUSE_TIMER) by discriminate.
  assert (He : mcause h0 <> CAUSE_EXTERNAL) by discriminate.
  destruct (fault_dispatch_never_returns h0 (steps 10) Ht He)
    as (Hnr & Hh & Hstay & _ & Hmip & _).
  fold c in Hnr, Hh, Hstay, Hmip.
  assert (Hc : Trap.halted c) by (apply Hh; vm_compute; lia).
  destruct (Hstay Hc (steps 10)) as (_ & Hlog & _).
  split; [exact Ht|]. split; [exact He|]. split; [exact Hnr|].
  split; [exact Hc|]. split.
  - rewrite Hlog. reflexivity.
  - rewrite Hmip. reflexivity.
Defined.

(** ** Two timer dispatches in a row *)

(** What a returned timer dispatch has left in the compare register. *)
Lemma timer_rearm_value h0 sched :
  mcause h0 = CAUSE_TIMER ->
  (5 <= cpu_steps sched)%nat ->
  exists v,
    observed_at_rearm h0 sched v
    /\ mtimecmp (hw_of (Trap.run sched (Trap.enter h0))) = add64 v 1000.
Proof.
  intros Hc Hn.
  pose proof (timer_progress h0 sched Hc) as Hp.
  pose proof (timer_phase_run h0 sched Hc) as Hph.
  rewrite Nat.min_l in Hp by exact Hn.
  assert (Hret : Trap.at_ (frame_of (Trap.run sched (Trap.enter h0)))
                 = Trap.Return).
  { unfold timer_phase in Hph.
    destruct (Trap.at_ (frame_of (Trap.run sched (Trap.enter h0))));
      cbn [progress] in Hp; try discriminate Hp; try contradiction;
      reflexivity. }
  pose proof (timer_observed h0 sched Hc (or_intror Hret)) as Hobs.
  unfold timer_phase in Hph. rewrite Hret in Hph.
  destruct Hph as (_ & _ & Hcmp). eauto.
Qed.


Lemma add64_cancel (a b k : Z) : add64 a k = add64 b k -> wrap64 a = wrap64 b.
Proof.
  unfold add64, wrap64. intros H.
  assert (E : forall x, x mod 2 ^ 64 = ((x + k) mod 2 ^ 64 - k) mod 2 ^ 64).
  { intros x. rewrite Zminus_mod_idemp_l. f_equal. lia. }
  rewrite (E a), (E b), H. reflexivity.
Qed.

Lemma wrap64_add64 (a k : Z) : wrap64 (add64 a k) = add64 a k.
Proof. unfold add64, wrap64. apply Z.mod_mod. lia. Qed.

(** Neither the dispatcher nor the environment writes mcause. *)
Lemma run_keeps_mcause sched (c : conf Trap.frame) :
  mcause (hw_of (Trap.run sched c)) = mcause (hw_of c).
Proof.
  unfold Trap.run.
  apply (exec_invariant Trap.handle_trap
           (fun c' => mcause (hw_of c') = mcause (hw_of c))); [|reflexivity].
  intros a [[p cz k] h lg] H. simpl in H.
  destruct a as [|[d|]]; simpl; try exact H.
  unfold Trap.handle_trap. destruct p; simpl; exact H.
Qed.

Lemma idle_keeps_mcause es h : mcause (idle es h) = mcause h.
Proof.
  revert h. induction es as [|e es IH]; intros h; [reflexivity|].
  simpl. rewrite IH. destruct e; reflexivity.
Qed.

(** C6. Two timer dispatches, each given its five steps, the second
    entered on the hardware as the first left it and the environment then
    moved it: both return, and each leaves in the compare register the
    counter value it read itself plus 1000 (at type [uint64_t]); unless the
    second read happens to equal the first compare value, the second
    compare value is not the first one plus 1000 again. *)
Theorem timer_rearm_is_relative_each_time :
  forall (h0 : hw) (sched1 sched2 : list action) (between : list envact),
    mcause h0 = CAUSE_TIMER ->
    (5 <= cpu_steps sched1)%nat ->
    (5 <= cpu_steps sched2)%nat ->
    let c1 := Trap.run sched1 (Trap.enter h0) in
    let h1 := idle between (hw_of c1) in
    let c2 := Trap.run sched2 (Trap.enter h1) in
    Trap.returned c1
    /\ Trap.returned c2
    /\ exists v1 v2,
         observed_at_rearm h0 sched1 v1
         /\ mtimecmp (hw_of c1) = add64 v1 1000
         /\ observed_at_rearm h1 sched2 v2
         /\ mtimecmp (hw_of c2) = add64 v2 1000
         /\ (wrap64 v2 <> add64 v1 1000 ->
             mtimecmp (hw_of c2) <> add64 (mtimecmp (hw_of c1)) 1000).
Proof.
  intros h0 sched1 sched2 between Hc Hn1 Hn2 c1 h1 c2.
  assert (Hc1 : mcause h1 = CAUSE_TIMER).
  { unfold h1, c1. now rewrite idle_keeps_mcause, run_keeps_mcause. }
  split; [apply (timer_returned_iff h0 sched1 Hc), Hn1|].
  split; [apply (timer_returned_iff h1 sched2 Hc1), Hn2|].
  destruct (timer_rearm_value h0 sched1 Hc Hn1) as (v1 & Ho1 & Hv1).
  destruct (timer_rearm_value h1 sched2 Hc1 Hn2) as (v2 & Ho2 & Hv2).
  fold c1 in Hv1. fold c2 in Hv2.
  exists v1, v2. repeat split; try assumption.
  rewrite Hv1, Hv2. intros Hne Heq. apply Hne.
  rewrite <- (wrap64_add64 v1 1000). apply (add64_cancel _ _ 1000), Heq.
Qed.

(** The counter reads 5000 at the first dispatch and 5300 at the second:
    both dispatches return, and the compare register goes to 6000 and then
    to 6300, not to 7000. *)
Lemma timer_twice_scenario :
  let h0 := hw_with CAUSE_TIMER 0x80 5000 0 in
  let c1 := Trap.run (steps 5) (Trap.enter h0) in
  let h1 := idle [Tick 300] (hw_of c1) in
  let c2 := Trap.run (steps 5) (Trap.enter h1) in
  mcause h0 = CAUSE_TIMER
  /\ Trap.returned c1 /\ Trap.returned c2
  /\ mtimecmp (hw_of c1) = 6000
  /\ mtimecmp (hw_of c2) = 6300
  /\ mtimecmp (hw_of c2) <> add64 (mtimecmp (hw_of c1)) 1000.
Proof.
  intros h0 c1 h1 c2.
  destruct (timer_rearm_is_relative_each_time h0 (steps 5) (steps 5)
              [Tick 300] eq_refl (le_n 5) (le_n 5))
    as (Hr1 & Hr2 & v1 & v2 & _ & Hv1 & _ & Hv2 & Hrel).
  subst c1 h1 c2. cbv zeta in Hr1, Hr2, Hv1, Hv2, Hrel.
  assert (H1 : add64 v1 1000 = 6000) by (rewrite <- Hv1; reflexivity).
  assert (H2 : add64 v2 1000 = 6300) by (rewrite <- Hv2; reflexivity).
  split; [reflexivity|]. split; [exact Hr1|]. split; [exact Hr2|].
  split; [rewrite Hv1; exact H1|]. split; [rewrite Hv2; exact H2|].
  apply Hrel. intros Heq. rewrite H1 in Heq.
  assert (H3 : add64 v2 1000 = add64 (wrap64 v2) 1000).
  { unfold add64, wrap64. now rewrite Zplus_mod_idemp_l. }
  rewrite H3, Heq in H2. discriminate H2.
Defined.

(** ** The lock routine *)

Lemma store_word_same m addr v : store_word m addr v addr = v.
Proof. unfold store_word. now rewrite Z.eqb_refl. Qed.

Lemma atomic_phase_call h0 : atomic_phase h0 (Atomic.call h0).
Proof. unfold atomic_phase. simpl. auto. Qed.

Lemma atomic_phase_act h0 a c :
  atomic_phase h0 c -> atomic_phase h0 (act Atomic.atomic_lr_sc a c).
Proof.
  destruct c as [p h lg]. unfold atomic_phase.
  destruct a as [|[d|]]; simpl.
  2, 3: destruct p; simpl; tauto.
  intros (Ha2 & Hlog & Hp).
  destruct p; simpl in *.
  - rewrite app_nil_r. auto.
  - rewrite app_nil_r. tauto.
  - destruct Hp as (H0 & H1). rewrite H0.
    repeat split; try assumption.
    + apply Forall_app. split; [assumption|].
      constructor; [reflexivity | constructor].
    + eauto.
  - destruct Hp as (H0 & H1 & before & Hb). rewrite app_nil_r.
    destruct (Z.eqb_spec (a3 h) (a1 h)) as [E|E]; simpl.
    + repeat split; try assumption; try congruence.
      exists before. rewrite Hb. do 3 f_equal. congruence.
    + auto.
  - destruct Hp as (H0 & H3 & before & Hb).
    destruct (Atomic.sc_ok h) eqn:Hok; simpl.
    all: rewrite H0, Ha2; repeat split; try assumption.
    all: try (apply Forall_app; split;
              [assumption | constructor; [simpl; auto | constructor]]).
    + exists before, true. rewrite Hb, <- app_assoc. simpl.
      split; [reflexivity|]. split; [reflexivity|].
      intros _. apply store_word_same.
    + exists before, false. rewrite Hb, <- app_assoc. simpl.
      split; [reflexivity|]. split; [reflexivity|]. discriminate.
  - destruct Hp as (before & ok & Hb & H3 & Hm). rewrite app_nil_r.
    destruct ok; rewrite H3; simpl; repeat split; try assumption.
    + exists before. exact Hb.
    + apply Hm. reflexivity.
  - rewrite app_nil_r. auto.
Qed.

Lemma atomic_phase_run h0 sched :
  atomic_phase h0 (Atomic.run sched (Atomic.call h0)).
Proof.
  unfold Atomic.run. apply exec_invariant.
  - intros a c. apply atomic_phase_act.
  - apply atomic_phase_call.
Qed.





(** ** A call by a single participant *)

Lemma acquire_phase_act a c :
  keeps_reservation a = true ->
  acquire_phase c -> acquire_phase (act Atomic.atomic_lr_sc a c).
Proof.
  destruct c as [p h lg]. unfold acquire_phase.
  destruct a as [|[d|]]; simpl; try discriminate; intros _.
  - destruct p; simpl; intros H;
      repeat match goal with H : _ /\ _ |- _ => destruct H end.
    + auto.
    + auto.
    + repeat split; try assumption; congruence.
    + replace (a3 h =? a1 h) with true
        by (symmetry; apply Z.eqb_eq; congruence).
      simpl. auto.
    + unfold Atomic.sc_ok.
      match goal with H : resv h = _ |- _ => rewrite H end.
      replace (LOCK_ADDR =? a0 h) with true
        by (symmetry; apply Z.eqb_eq; congruence).
      reflexivity.
    + match goal with H : a3 h = 0 |- _ => rewrite H end. simpl. exact I.
    + exact I.
  - destruct p; simpl; tauto.
Qed.

Lemma acquire_phase_run h0 sched :
  mem h0 LOCK_ADDR = 0 ->
  undisturbed sched = true ->
  acquire_phase (Atomic.run sched (Atomic.call h0)).
Proof.
  intros Hm Hu. unfold Atomic.run.
  apply (exec_invariant_on Atomic.atomic_lr_sc keeps_reservation).
  - intros a c. apply acquire_phase_act.
  - exact Hu.
  - exact Hm.
Qed.

(** With the lock word at 0 and the reservation kept, the routine advances
    by one instruction per step and is left after the sixth. *)
Lemma acquire_position h0 sched :
  mem h0 LOCK_ADDR = 0 ->
  undisturbed sched = true ->
  position (frame_of (Atomic.run sched (Atomic.call h0)))
  = Nat.min 6 (cpu_steps sched).
Proof.
  intros Hm. induction sched as [|a l IH] using rev_ind; [reflexivity|].
  unfold undisturbed. rewrite forallb_app. intros Hu.
  apply andb_prop in Hu. destruct Hu as (Hl & Ha).
  specialize (IH Hl). pose proof (acquire_phase_run h0 l Hm Hl) as Hph.
  unfold Atomic.run in *. rewrite exec_snoc, cpu_steps_snoc.
  destruct (exec Atomic.atomic_lr_sc l (Atomic.call h0)) as [p h lg].
  unfold acquire_phase in Hph.
  change (position p = Nat.min 6 (cpu_steps l)) in IH.
  destruct a as [|e]; cbn [is_cpu].
  - destruct p; simpl in Hph; cbn [position] in IH;
      repeat match goal with H : _ /\ _ |- _ => destruct H end.
    1, 2, 3, 7: simpl_lhs; lia.
    + simpl_lhs.
      replace (a3 h =? a1 h) with true
        by (symmetry; apply Z.eqb_eq; congruence).
      cbn [position]. lia.
    + cbn [act frame_of hw_of Atomic.atomic_lr_sc].
      destruct (Atomic.sc_ok h); simpl_lhs; lia.
    + simpl_lhs. rewrite Hph. cbn [Z.eqb position]. lia.
  - simpl_lhs. lia.
Qed.

(** A single participant that finds the lock word at 0 leaves the routine,
    and the lock word then holds what a2 held at entry. *)
Lemma acquire_stores_a2 h0 sched :
  mem h0 LOCK_ADDR = 0 ->
  undisturbed sched = true ->
  (6 <= cpu_steps sched)%nat ->
  let c := Atomic.run sched (Atomic.call h0) in
  frame_of c = Atomic.Done /\ mem (hw_of c) LOCK_ADDR = a2 h0.
Proof.
  intros Hm Hu Hn c.
  pose proof (acquire_position h0 sched Hm Hu) as Hp.
  pose proof (atomic_phase_run h0 sched) as Hph.
  rewrite Nat.min_l in Hp by exact Hn. fold c in Hp, Hph.
  unfold atomic_phase in Hph. destruct Hph as (_ & _ & Hph).
  destruct (frame_of c); cbn [position] in Hp; try discriminate Hp.
  split; [reflexivity|]. apply Hph.
Qed.

(** ** The whole program *)

Lemma sys_exec_cons a l s : Sys.exec (a :: l) s = Sys.exec l (Sys.step a s).
Proof. reflexivity. Qed.

Lemma sys_exec_invariant (P : Sys.state -> Prop) :
  (forall a s, P s -> P (Sys.step a s)) ->
  forall sched s, P s -> P (Sys.exec sched s).
Proof.
  intros Hstep sched. induction sched as [|a l IH]; intros s Hs.
  - exact Hs.
  - rewrite sys_exec_cons. apply IH, Hstep, Hs.
Qed.

Lemma normal_mode_writes_app l1 l2 :
  normal_mode_writes (l1 ++ l2)
  = (normal_mode_writes l1 + normal_mode_writes l2)%nat.
Proof. unfold normal_mode_writes. now rewrite filter_app, length_app. Qed.

Lemma sys_inv_boot h0 : sys_inv h0 (Sys.boot h0).
Proof.
  unfold sys_inv. simpl. repeat split; auto. discriminate.
Qed.

Lemma sys_inv_step h0 a s : sys_inv h0 s -> sys_inv h0 (Sys.step a s).
Proof.
  destruct s as [h [mp mk] tr lg]. unfold sys_inv. simpl.
  intros (Hlog & Hmem & Hcnt & Ha0).
  destruct a as [|e|c]; simpl.
  - unfold Sys.cpu_step. simpl. destruct tr as [[tp tc tk]|]; simpl.
    + destruct tp; simpl; rewrite ?normal_mode_writes_app, ?app_nil_r;
        repeat split; try assumption; step_log;
        rewrite Hcnt; unfold normal_mode_writes; simpl; lia.
    + unfold Main.main.
      destruct mp as [| | |p|]; [| | |destruct p|]; simpl in Hcnt, Ha0 |- *;
        try specialize (Ha0 eq_refl).
      all: repeat match goal with
                  | |- context [if ?b then _ else _] => destruct b eqn:?
                  end; simpl.
      all: rewrite ?app_nil_r.
      all: split; [step_log; try assumption|split; [|split]].
      all: try exact Hmem.
      all: try (rewrite ?normal_mode_writes_app, Hcnt;
                unfold normal_mode_writes; simpl; lia).
      all: try exact Hcnt.
      all: try (intros _; first [exact Ha0 | reflexivity]).
      all: try discriminate.
      intros x Hx. unfold store_word. rewrite Ha0.
      destruct (Z.eqb_spec x LOCK_ADDR); [contradiction|]. apply Hmem, Hx.
  - destruct e; simpl; auto.
  - destruct tr; simpl; auto.
Qed.

Lemma sys_inv_exec h0 sched : sys_inv h0 (Sys.exec sched (Sys.boot h0)).
Proof.
  apply sys_exec_invariant.
  - intros a s. apply sys_inv_step.
  - apply sys_inv_boot.
Qed.

Lemma expected_write (oe : origin * access) :
  expected oe ->
  (writes_mip (snd oe) = true -> fst oe = In_handle_trap)
  /\ (writes_mtimecmp (snd oe) = true ->
      fst oe = In_handle_trap \/ fst oe = In_main).
Proof.
  destruct oe as [o e].
  destruct o, e as [[|] v|[|] m|addr v|addr v|addr v|addr v ok|str]; simpl;
    intros H; try contradiction; split; intros Hw;
    try discriminate Hw; auto.
Qed.

Lemma expected_reservation (oe : origin * access) :
  expected oe ->
  match snd oe with
  | LoadReserved addr _ | StoreConditional addr _ _ =>
      addr = LOCK_ADDR /\ fst oe = In_atomic_lr_sc
  | _ => True
  end.
Proof.
  destruct oe as [o e].
  destruct o, e as [[|] v|[|] m|addr v|addr v|addr v|addr v ok|str]; simpl;
    intros H; try contradiction; auto.
Qed.

Lemma expected_apart (lock_var : Z) (oe : origin * access) :
  lock_var_placed lock_var ->
  expected oe -> touches lock_var 4 (snd oe) = false.
Proof.
  intros (Hio & Hlock). destruct oe as [o e].
  unfold IO_MTIME, IO_MTIMECMP, IO_BASE, LOCK_ADDR in Hio, Hlock.
  destruct o, e as [[|] v|[|] m|addr v|addr v|addr v|addr v ok|str]; simpl;
    intros H; try contradiction; try reflexivity; subst addr;
    unfold touches, footprint, IO_MTIME, IO_MTIMECMP, IO_BASE, LOCK_ADDR;
    apply andb_false_iff; rewrite !Z.ltb_ge; lia.
Qed.

(** The first two steps of the program are its line 99: the log then holds
    a write of the compare register performed by [main]. *)
Lemma main_arms_the_timer :
  ~ trap_only
      (Sys.log (Sys.exec [Sys.Cpu; Sys.Cpu] (Sys.boot (hw_with 0 0 5000 0)))).
Proof.
  intros H. apply Forall_inv_tail, Forall_inv in H.
  specialize (H eq_refl). discriminate H.
Qed.

(** C3, as the program has it. In every execution from reset, whatever
    traps are delivered and wherever: the pending field is written from
    inside [handle_trap] only; the compare register is written from inside
    [handle_trap] and by [main], never by [atomic_lr_sc]; and the writes of
    either that happen outside [handle_trap] are none while [main] has not
    executed its store of line 99 and exactly that one store afterwards. *)
Theorem trap_registers_writers :
  forall (h0 : hw) (sched : list Sys.action),
    let s := Sys.exec sched (Sys.boot h0) in
    Forall (fun oe => writes_mip (snd oe) = true -> fst oe = In_handle_trap)
           (Sys.log s)
    /\ Forall (fun oe => writes_mtimecmp (snd oe) = true ->
                         fst oe = In_handle_trap \/ fst oe = In_main)
              (Sys.log s)
    /\ normal_mode_writes (Sys.log s)
       = (if armed (Main.at_ (Sys.normal s)) then 1 else 0)%nat.
Proof.
  intros h0 sched s.
  destruct (sys_inv_exec h0 sched) as (Hlog & _ & Hcnt & _). fold s in Hlog, Hcnt.
  repeat split; try exact Hcnt.
  - eapply Forall_impl; [|exact Hlog]. intros oe H. apply expected_write, H.
  - eapply Forall_impl; [|exact Hlog]. intros oe H. apply expected_write, H.
Qed.

(** A run of the whole of [main] with a timer interrupt delivered after the
    greeting: one write of the compare register outside [handle_trap], one
    inside, the clearing of the pending bit inside. *)
Lemma trap_registers_scenario :
  let sched := [Sys.Cpu; Sys.Cpu; Sys.Cpu; Sys.Deliver CAUSE_TIMER;
                Sys.Cpu; Sys.Cpu; Sys.Cpu; Sys.Cpu; Sys.Cpu; Sys.Cpu;
                Sys.Cpu; Sys.Cpu; Sys.Cpu; Sys.Cpu; Sys.Cpu; Sys.Cpu;
                Sys.Cpu] in
  let s := Sys.exec sched (Sys.boot (hw_with 0 0x80 5000 1)) in
  Main.at_ (Sys.normal s) = Main.Exit
  /\ normal_mode_writes (Sys.log s) = 1%nat
  /\ filter (fun oe => writes_trap_register (snd oe)) (Sys.log s)
     = [(In_main, Store64 IO_MTIMECMP 5100);
        (In_handle_trap, CsrClear MIP 128);
        (In_handle_trap, Store64 IO_MTIMECMP 6000)].
Proof.
  intros sched s.
  destruct (trap_registers_writers (hw_with 0 0x80 5000 1) sched)
    as (_ & _ & Hcnt).
  fold s in Hcnt. split; [reflexivity|]. split; [|reflexivity].
  rewrite Hcnt. reflexivity.
Defined.

(** C9. Wherever the linker puts [lock_var], apart from the timer registers
    and from the word at 0xc0100000: in every execution from reset no access
    of the program covers any of its bytes, every load-reserved and
    conditional store is performed by [atomic_lr_sc] on the word at
    0xc0100000, and [lock_var] still holds its initial 0. *)
Theorem lock_var_never_accessed :
  forall (lock_var : Z) (h0 : hw) (sched : list Sys.action),
    lock_var_placed lock_var ->
    mem h0 lock_var = 0 ->
    let s := Sys.exec sched (Sys.boot h0) in
    Forall (fun oe => touches lock_var 4 (snd oe) = false) (Sys.log s)
    /\ Forall (fun oe =>
                 match snd oe with
                 | LoadReserved addr _ | StoreConditional addr _ _ =>
                     addr = LOCK_ADDR /\ fst oe = In_atomic_lr_sc
                 | _ => True
                 end) (Sys.log s)
    /\ mem (Sys.hw_ s) lock_var = 0.
Proof.
  intros lock_var h0 sched Hplaced Hinit s.
  destruct (sys_inv_exec h0 sched) as (Hlog & Hmem & _). fold s in Hlog, Hmem.
  repeat split.
  - eapply Forall_impl; [|exact Hlog].
    intros oe H. apply expected_apart; assumption.
  - eapply Forall_impl; [|exact Hlog].
    intros oe H. apply expected_reservation, H.
  - rewrite Hmem; [exact Hinit|].
    destruct Hplaced as (_ & Hlock). unfold LOCK_ADDR in *. lia.
Qed.

(** [lock_var] in RAM at 0x80001000, a2 holding 9 when [atomic_lr_sc] is
    entered, a timer interrupt on the way: the program ends with 9 in the
    word at 0xc0100000 and 0 in [lock_var]. *)
Lemma lock_var_scenario :
  let sched := [Sys.Cpu; Sys.Cpu; Sys.Cpu; Sys.Cpu; Sys.Cpu;
                Sys.Deliver CAUSE_TIMER;
                Sys.Cpu; Sys.Cpu; Sys.Cpu; Sys.Cpu; Sys.Cpu; Sys.Cpu;
                Sys.Cpu; Sys.Cpu; Sys.Cpu; Sys.Cpu; Sys.Cpu] in
  let s := Sys.exec sched (Sys.boot (hw_with 0 0x80 5000 9)) in
  lock_var_placed 0x80001000
  /\ Main.at_ (Sys.normal s) = Main.Exit
  /\ mem (Sys.hw_ s) LOCK_ADDR = 9
  /\ mem (Sys.hw_ s) 0x80001000 = 0.
Proof.
  intros sched s.
  assert (Hplaced : lock_var_placed 0x80001000).
  { unfold lock_var_placed, IO_MTIME, IO_MTIMECMP, IO_BASE, LOCK_ADDR. lia. }
  destruct (lock_var_never_accessed 0x80001000 (hw_with 0 0x80 5000 9) sched
              Hplaced eq_refl) as (_ & _ & Hvar).
  fold s in Hvar.
  split; [exact Hplaced|]. split; [reflexivity|]. split; [reflexivity|].
  exact Hvar.
Defined.

(** ** What the conditional store writes *)

(** C10. No instruction of the routine writes a2: along every execution of
    a call a2 holds what it held at entry, every conditional store the
    routine performs addresses the word at 0xc0100000 with that value as its
    operand, and once the routine has been left that word holds it. Entered
    with 0 in a2 on a lock word at 0, the routine is left with the
    conditional store succeeded and 0 in the lock word. *)
Theorem conditional_store_writes_entry_a2 :
  (forall (h0 : hw) (sched : list action),
     let c := Atomic.run sched (Atomic.call h0) in
     a2 (hw_of c) = a2 h0
     /\ Forall (lock_access (a2 h0)) (log_of c)
     /\ (frame_of c = Atomic.Done -> mem (hw_of c) LOCK_ADDR = a2 h0))
  /\ (exists h0,
        a2 h0 = 0 /\ mem h0 LOCK_ADDR = 0
        /\ let c := Atomic.run (steps 6) (Atomic.call h0) in
           frame_of c = Atomic.Done
           /\ log_of c = [LoadReserved LOCK_ADDR 0;
                          StoreConditional LOCK_ADDR 0 true]
           /\ mem (hw_of c) LOCK_ADDR = 0).
Proof.
  split.
  - intros h0 sched c.
    pose proof (atomic_phase_run h0 sched) as Hph. fold c in Hph.
    unfold atomic_phase in Hph. destruct Hph as (Ha2 & Hlog & Hp).
    repeat split; try assumption.
    intros Hd. rewrite Hd in Hp. apply Hp.
  - exists (hw_with 0 0 0 0). repeat split.
Qed.

(** Entered with 42 in a2 on a free lock word, the routine leaves 42 in it;
    entered with 0, it leaves 0. *)
Lemma conditional_store_scenario :
  let c := Atomic.run (steps 6) (Atomic.call (hw_with 0 0 0 42)) in
  frame_of c = Atomic.Done
  /\ a2 (hw_of c) = 42
  /\ mem (hw_of c) LOCK_ADDR = 42.
Proof.
  intros c.
  destruct conditional_store_writes_entry_a2 as (Hall & _).
  destruct (Hall (hw_with 0 0 0 42) (steps 6)) as (Ha2 & _ & Hmem).
  fold c in Ha2, Hmem.
  split; [reflexivity|]. split; [exact Ha2|]. apply Hmem. reflexivity.
Defined.

(** C2, on the code. A single participant that finds the lock word at 0
    does leave the routine, but with the entry value of a2 in the lock word:
    entered with 0 in a2 the lock word is 0 afterwards, as if the lock were
    free, and no non-zero constant is what every such call leaves. *)
Theorem acquire_leaves_no_sentinel :
  (forall (h0 : hw) (sched : list action),
     mem h0 LOCK_ADDR = 0 ->
     undisturbed sched = true ->
     (6 <= cpu_steps sched)%nat ->
     let c := Atomic.run sched (Atomic.call h0) in
     frame_of c = Atomic.Done /\ mem (hw_of c) LOCK_ADDR = a2 h0)
  /\ (let c := Atomic.run (steps 6) (Atomic.call (hw_with 0 0 0 0)) in
      frame_of c = Atomic.Done /\ mem (hw_of c) LOCK_ADDR = 0)
  /\ ~ (exists sentinel,
          sentinel <> 0
          /\ forall h0,
               mem h0 LOCK_ADDR = 0 ->
               mem (hw_of (Atomic.run (steps 6) (Atomic.call h0))) LOCK_ADDR
               = sentinel).
Proof.
  split; [|split].
  - intros h0 sched Hm Hu Hn. apply acquire_stores_a2; assumption.
  - split; reflexivity.
  - intros (sentinel & Hnz & Hall).
    specialize (Hall (hw_with 0 0 0 0) eq_refl). apply Hnz.
    rewrite <- Hall. reflexivity.
Qed.

(** The call of the failing input, and one with 5 in a2 while the counter
    runs: both are left after six instructions, with 0 and 5 in the lock
    word. *)
Lemma acquire_scenario :
  let sched := [Cpu; Env (Tick 3); Cpu; Cpu; Cpu; Env (Tick 1); Cpu; Cpu] in
  let c := Atomic.run sched (Atomic.call (hw_with 0 0 0 5)) in
  undisturbed sched = true
  /\ frame_of c = Atomic.Done
  /\ mem (hw_of c) LOCK_ADDR = 5.
Proof.
  intros sched c.
  destruct acquire_leaves_no_sentinel as (Hall & _).
  destruct (Hall (hw_with 0 0 0 5) sched eq_refl eq_refl (le_n 6))
    as (Hd & Hm).
  fold c in Hd, Hm. split; [reflexivity|]. split; assumption.
Defined.

(** ** Two harts in the lock routine *)

Lemma duo_run_cons sched w d :
  Duo.run (w :: sched) d = Duo.run sched (Duo.turn w d).
Proof. reflexivity. Qed.

Lemma sc_ok_set_mem m h : Atomic.sc_ok (set_mem m h) = Atomic.sc_ok h.
Proof. reflexivity. Qed.

Lemma move_phase m c o :
  m LOCK_ADDR = 0 ->
  duo_side c o -> duo_side o c ->
  let '(m', c', o') := Duo.move m c o in
  m' LOCK_ADDR = 0 /\ duo_side c' o' /\ duo_side o' c'.
Proof.
  destruct c as [p h lg], o as [q k lq]. unfold Duo.move, duo_side, took.
  cbn [frame_of hw_of log_of]. intros Hm (Ha2 & Hc) (Hb2 & Ho).
  destruct p; cbn [Atomic.atomic_lr_sc].
  5: { rewrite sc_ok_set_mem. destruct Hc as (H0 & Hc).
       destruct (Atomic.sc_ok h) eqn:Hok; unfold succeeded, Duo.snoops;
         simpl.
       - split.
         + unfold store_word. destruct (LOCK_ADDR =? a0 h); assumption.
         + split.
           { split; [assumption|]. split.
             - intros H; contradiction H; reflexivity.
             - intros _. exists lg. rewrite H0, Ha2. reflexivity. }
           unfold Atomic.sc_ok in *.
           destruct (resv k) as [r|]; [destruct (r =? a0 h)|];
             destruct q; simpl in *; tauto.
       - split; [assumption|]. split.
         { split; [assumption|]. split; [tauto|]. intros H; discriminate H. }
         destruct q; simpl in *; try tauto.
         all: split; [assumption|]; try split; try tauto.
         all: try split; try tauto.
         all: intros H; apply Ho in H; discriminate H. }
  all: unfold succeeded, Duo.snoops in *; cbn [frame_of hw_of] in *;
    simpl; rewrite ?sc_ok_set_mem, ?app_nil_r.
  4: replace (a3 h =? a1 h) with true
       by (symmetry; apply Z.eqb_eq; apply Hc).
  5: destruct (a3 h =? 0) eqn:Hz.
  all: (split; [assumption|]).
  all: split; [split; [assumption|]|split; [assumption|]].
  all: try solve [destruct q; simpl in *; intuition congruence].
  - destruct Hc as (H0 & H1). split; [exact H0|].
    split; [rewrite H0, Hm, H1; reflexivity|].
    unfold Atomic.sc_ok. simpl. rewrite Z.eqb_refl. discriminate.
  - apply Hc. apply Z.eqb_eq. exact Hz.
Qed.

Lemma move_budget m c o :
  m LOCK_ADDR = 0 ->
  duo_side c o ->
  let '(_, c', o') := Duo.move m c o in
  (budget c' o' <= budget c o - 1)%nat /\ (budget o' c' <= budget o c)%nat.
Proof.
  destruct c as [p h lg], o as [q k lq]. unfold Duo.move, duo_side.
  cbn [frame_of hw_of]. intros Hm (Ha2 & Hc).
  destruct p; cbn [Atomic.atomic_lr_sc].
  5: rewrite sc_ok_set_mem; destruct (Atomic.sc_ok h) eqn:Hok.
  all: unfold budget, slack, succeeded, Duo.snoops in *;
    cbn [frame_of hw_of fold_left Duo.snoop a0 a1 a2 a3 resv mem set_mem
         set_a0 set_a1 set_a3 set_resv] in *;
    rewrite ?sc_ok_set_mem.
  4: replace (a3 h =? a1 h) with true
       by (symmetry; apply Z.eqb_eq; apply Hc).
  3: replace (Atomic.sc_ok
                (set_resv (Some (a0 h)) (set_a3 (m (a0 h)) (set_mem m h))))
       with true by (unfold Atomic.sc_ok; simpl; symmetry; apply Z.eqb_refl).
  5: { destruct (resv k) as [r|] eqn:Hr; [destruct (r =? a0 h) eqn:Hra|];
       rewrite ?Hok;
       (replace (Atomic.sc_ok (set_resv None k)) with false by reflexivity);
       cbn [a3 set_resv]; rewrite ?Hok;
       destruct q;
       repeat match goal with
              | |- context [if ?b then _ else _] => destruct b eqn:?
              end; lia. }
  all: destruct q;
    repeat match goal with
           | |- context [if ?b then _ else _] => destruct b eqn:?
           end; lia.
Qed.

Lemma duo_phase_start m h0 h1 :
  m LOCK_ADDR = 0 -> a2 h0 = 0 -> a2 h1 = 0 ->
  duo_phase (Duo.start m h0 h1).
Proof. intros Hm H0 H1. unfold duo_phase, duo_side. simpl. tauto. Qed.

Lemma duo_phase_turn w d : duo_phase d -> duo_phase (Duo.turn w d).
Proof.
  destruct d as [m c0 c1]. unfold duo_phase. cbn [Duo.shared Duo.hart0 Duo.hart1].
  intros (Hm & H0 & H1). destruct w; unfold Duo.turn;
    cbn [Duo.shared Duo.hart0 Duo.hart1].
  - pose proof (move_phase m c0 c1 Hm H0 H1) as H.
    destruct (Duo.move m c0 c1) as [[m' c'] o']. exact H.
  - pose proof (move_phase m c1 c0 Hm H1 H0) as H.
    destruct (Duo.move m c1 c0) as [[m' c'] o']. simpl. tauto.
Qed.

Lemma duo_budget_turn w d :
  duo_phase d ->
  let d' := Duo.turn w d in
  (budget (Duo.hart0 d') (Duo.hart1 d')
   <= budget (Duo.hart0 d) (Duo.hart1 d) - Duo.turns0 [w])%nat
  /\ (budget (Duo.hart1 d') (Duo.hart0 d')
      <= budget (Duo.hart1 d) (Duo.hart0 d) - Duo.turns1 [w])%nat.
Proof.
  destruct d as [m c0 c1]. unfold duo_phase. cbn [Duo.shared Duo.hart0 Duo.hart1].
  intros (Hm & H0 & H1). destruct w; unfold Duo.turn;
    cbn [Duo.shared Duo.hart0 Duo.hart1].
  - pose proof (move_budget m c0 c1 Hm H0) as H.
    destruct (Duo.move m c0 c1) as [[m' c'] o'].
    cbn [Duo.hart0 Duo.hart1].
    change (Duo.turns0 [Duo.Hart0]) with 1%nat.
    change (Duo.turns1 [Duo.Hart0]) with 0%nat. lia.
  - pose proof (move_budget m c1 c0 Hm H1) as H.
    destruct (Duo.move m c1 c0) as [[m' c'] o'].
    cbn [Duo.hart0 Duo.hart1].
    change (Duo.turns0 [Duo.Hart1]) with 0%nat.
    change (Duo.turns1 [Duo.Hart1]) with 1%nat. lia.
Qed.

Lemma turns_cons w sched :
  Duo.turns0 (w :: sched) = (Duo.turns0 [w] + Duo.turns0 sched)%nat
  /\ Duo.turns1 (w :: sched) = (Duo.turns1 [w] + Duo.turns1 sched)%nat.
Proof. unfold Duo.turns0, Duo.turns1. destruct w; split; reflexivity. Qed.

Lemma duo_run_bound sched :
  forall d,
    duo_phase d ->
    let d' := Duo.run sched d in
    duo_phase d'
    /\ (budget (Duo.hart0 d') (Duo.hart1 d')
        <= budget (Duo.hart0 d) (Duo.hart1 d) - Duo.turns0 sched)%nat
    /\ (budget (Duo.hart1 d') (Duo.hart0 d')
        <= budget (Duo.hart1 d) (Duo.hart0 d) - Duo.turns1 sched)%nat.
Proof.
  induction sched as [|w l IH]; intros d Hd d'; subst d'.
  - change (Duo.run [] d) with d. change (Duo.turns0 []) with 0%nat.
    change (Duo.turns1 []) with 0%nat. split; [exact Hd|lia].
  - rewrite duo_run_cons. destruct (turns_cons w l) as (E0 & E1).
    rewrite E0, E1.
    destruct (IH _ (duo_phase_turn w d Hd)) as (Hph & B0 & B1).
    destruct (duo_budget_turn w d Hd) as (T0 & T1).
    split; [exact Hph|]. lia.
Qed.

Lemma budget_done c o : budget c o = 0%nat -> frame_of c = Atomic.Done.
Proof.
  unfold budget, slack. destruct (frame_of c); try reflexivity.
  all: repeat match goal with
              | |- context [if ?b then _ else _] => destruct b
              end; intros H; exfalso; lia.
Qed.

(** C8, on the code. Two harts that call the routine with 0 in a2 on a
    lock word at 0, their instructions interleaved in any order: the lock
    word is 0 at every moment, each hart has left the routine once it has
    executed twelve instructions, and a hart that has left has just had its
    conditional store of 0 go through. In lockstep the first conditional
    store of hart 0 goes through and that of hart 1 fails; hart 1 goes back
    to [again:], finds the lock word at 0 and stores as well: both harts
    have left, each after a conditional store that went through, and the
    lock word is 0. So it is not the case that at most one hart is ever
    past the routine. *)
Theorem two_harts_both_leave :
  (forall (m : Z -> Z) (h0 h1 : hw) (sched : list Duo.who),
     m LOCK_ADDR = 0 -> a2 h0 = 0 -> a2 h1 = 0 ->
     let d := Duo.run sched (Duo.start m h0 h1) in
     Duo.shared d LOCK_ADDR = 0
     /\ ((12 <= Duo.turns0 sched)%nat -> frame_of (Duo.hart0 d) = Atomic.Done)
     /\ ((12 <= Duo.turns1 sched)%nat -> frame_of (Duo.hart1 d) = Atomic.Done)
     /\ (frame_of (Duo.hart0 d) = Atomic.Done -> took (Duo.hart0 d))
     /\ (frame_of (Duo.hart1 d) = Atomic.Done -> took (Duo.hart1 d)))
  /\ (let d := Duo.run (Duo.lockstep 12)
                 (Duo.start (fun _ => 0) (hw_with 0 0 0 0) (hw_with 0 0 0 0)) in
      log_of (Duo.hart0 d)
      = [LoadReserved LOCK_ADDR 0; StoreConditional LOCK_ADDR 0 true]
      /\ log_of (Duo.hart1 d)
         = [LoadReserved LOCK_ADDR 0; StoreConditional LOCK_ADDR 0 false;
            LoadReserved LOCK_ADDR 0; StoreConditional LOCK_ADDR 0 true]
      /\ frame_of (Duo.hart0 d) = Atomic.Done
      /\ frame_of (Duo.hart1 d) = Atomic.Done
      /\ Duo.shared d LOCK_ADDR = 0)
  /\ ~ (forall (m : Z -> Z) (h0 h1 : hw) (sched : list Duo.who),
          m LOCK_ADDR = 0 ->
          let d := Duo.run sched (Duo.start m h0 h1) in
          ~ (frame_of (Duo.hart0 d) = Atomic.Done
             /\ frame_of (Duo.hart1 d) = Atomic.Done)).
Proof.
  split; [|split].
  - intros m h0 h1 sched Hm H0 H1 d.
    destruct (duo_run_bound sched _ (duo_phase_start m h0 h1 Hm H0 H1))
      as (Hph & B0 & B1).
    fold d in Hph, B0, B1. destruct Hph as (Hw & S0 & S1).
    change (budget (Duo.hart0 (Duo.start m h0 h1))
                   (Duo.hart1 (Duo.start m h0 h1))) with 12%nat in B0.
    change (budget (Duo.hart1 (Duo.start m h0 h1))
                   (Duo.hart0 (Duo.start m h0 h1))) with 12%nat in B1.
    split; [exact Hw|].
    split; [intros Hn; apply (budget_done _ (Duo.hart1 d)); lia|].
    split; [intros Hn; apply (budget_done _ (Duo.hart0 d)); lia|].
    unfold duo_side in S0, S1. split.
    + intros Hd. rewrite Hd in S0. apply S0.
    + intros Hd. rewrite Hd in S1. apply S1.
  - repeat split.
  - intros Hall.
    apply (Hall (fun _ => 0) (hw_with 0 0 0 0) (hw_with 0 0 0 0)
                (Duo.lockstep 12) eq_refl).
    split; reflexivity.
Qed.

(** Hart 1 runs ahead up to its [sc.w], hart 0 then runs the whole routine,
    hart 1 goes on: both have left and the lock word is 0. *)
Lemma two_harts_scenario :
  let sched := repeat Duo.Hart1 4 ++ repeat Duo.Hart0 12
               ++ repeat Duo.Hart1 8 in
  let d := Duo.run sched
             (Duo.start (fun _ => 0) (hw_with 0 0 0 0) (hw_with 0 0 5000 0)) in
  frame_of (Duo.hart0 d) = Atomic.Done
  /\ frame_of (Duo.hart1 d) = Atomic.Done
  /\ Duo.shared d LOCK_ADDR = 0.
Proof.
  intros sched d.
  destruct two_harts_both_leave as (Hall & _).
  destruct (Hall (fun _ => 0) (hw_with 0 0 0 0) (hw_with 0 0 5000 0) sched
                 eq_refl eq_refl eq_refl) as (Hw & H0 & H1 & _).
  fold d in Hw, H0, H1.
  split; [apply H0, le_n|]. split; [apply H1, le_n|exact Hw].
Defined.

(** * Further properties of the code *)

(** ** The lock routine on a held lock *)

Lemma spin_phase_call h0 : spin_phase h0 (Atomic.call h0).
Proof. unfold spin_phase. simpl. auto. Qed.

Lemma spin_phase_act h0 a c :
  mem h0 LOCK_ADDR <> 0 ->
  spin_phase h0 c -> spin_phase h0 (act Atomic.atomic_lr_sc a c).
Proof.
  intros Hheld. destruct c as [p h lg]. unfold spin_phase.
  destruct a as [|[d|]]; simpl.
  2, 3: destruct p; simpl; tauto.
  intros (Hmem & Hlog & Hp).
  destruct p; simpl in *; try contradiction; rewrite ?app_nil_r.
  - auto.
  - tauto.
  - destruct Hp as (H0 & H1). rewrite H0, Hmem.
    repeat split; try assumption.
    apply Forall_app. split; [assumption|]. constructor; [reflexivity|constructor].
  - destruct Hp as (H1 & H3).
    replace (a3 h =? a1 h) with false
      by (symmetry; apply Z.eqb_neq; congruence).
    auto.
Qed.

Lemma spin_phase_run h0 sched :
  mem h0 LOCK_ADDR <> 0 ->
  spin_phase h0 (Atomic.run sched (Atomic.call h0)).
Proof.
  intros Hheld. unfold Atomic.run. apply exec_invariant.
  - intros a c. apply spin_phase_act, Hheld.
  - apply spin_phase_call.
Qed.

(** On a held lock every fourth instruction is a load-reserved. *)
Lemma spin_count h0 sched :
  mem h0 LOCK_ADDR <> 0 ->
  let c := Atomic.run sched (Atomic.call h0) in
  Z.of_nat (cpu_steps sched)
  = 4 * Z.of_nat (List.length (log_of c)) + since_load (frame_of c).
Proof.
  intros Hheld. induction sched as [|a l IH] using rev_ind; [reflexivity|].
  cbv zeta in *. unfold Atomic.run in *. rewrite exec_snoc, cpu_steps_snoc.
  pose proof (spin_phase_run h0 l Hheld) as Hph. unfold Atomic.run in Hph.
  destruct (exec Atomic.atomic_lr_sc l (Atomic.call h0)) as [p h lg].
  unfold spin_phase in Hph. remember 4 as four eqn:Efour.
  simpl in Hph, IH. destruct Hph as (_ & _ & Hp).
  destruct a as [|e]; simpl; [|lia].
  destruct p; simpl in *; try contradiction;
    rewrite ?length_app; simpl; try lia.
  destruct Hp as (H1 & H3).
  replace (a3 h =? a1 h) with false
    by (symmetry; apply Z.eqb_neq; congruence).
  simpl. lia.
Qed.

(** X1. Entered while the word at 0xc0100000 is not 0, and as long as nobody
    else writes it: the routine is never left and never reaches its
    conditional store; memory stays as it was; all it does is load-reserve
    that same value again, once per round of four instructions, without
    end. *)
Theorem held_lock_spins_forever :
  forall (h0 : hw) (sched : list action),
    mem h0 LOCK_ADDR <> 0 ->
    let c := Atomic.run sched (Atomic.call h0) in
    frame_of c <> Atomic.Done
    /\ frame_of c <> Atomic.Sc
    /\ mem (hw_of c) = mem h0
    /\ log_of c
       = repeat (LoadReserved LOCK_ADDR (mem h0 LOCK_ADDR))
                (List.length (log_of c))
    /\ (4 * List.length (log_of c) <= cpu_steps sched + 1
        < 4 * List.length (log_of c) + 4)%nat.
Proof.
  intros h0 sched Hheld c.
  pose proof (spin_phase_run h0 sched Hheld) as Hph.
  pose proof (spin_count h0 sched Hheld) as Hn.
  fold c in Hph. cbv zeta in Hn. fold c in Hn.
  unfold spin_phase in Hph. destruct Hph as (Hmem & Hlog & Hp).
  split; [|split; [|split; [|split]]].
  - intros E. rewrite E in Hp. exact Hp.
  - intros E. rewrite E in Hp. exact Hp.
  - exact Hmem.
  - apply Forall_eq_repeat.
    eapply Forall_impl; [|exact Hlog]. intros e He. symmetry. exact He.
  - destruct (frame_of c); cbn [since_load] in Hn; try contradiction; lia.
Qed.

(** The lock word holds 7: after forty instructions the routine is still
    inside, having loaded 7 ten times. *)
Lemma held_lock_scenario :
  let held := set_mem (store_word (fun _ => 0) LOCK_ADDR 7) (hw_with 0 0 0 1) in
  let c := Atomic.run (steps 40) (Atomic.call held) in
  mem held LOCK_ADDR <> 0
  /\ frame_of c <> Atomic.Done
  /\ log_of c = repeat (LoadReserved LOCK_ADDR 7) 10.
Proof.
  intros held c.
  assert (Hheld : mem held LOCK_ADDR <> 0) by discriminate.
  destruct (held_lock_spins_forever held (steps 40) Hheld)
    as (Hnd & _ & _ & Hlog & _).
  fold c in Hnd, Hlog.
  split; [exact Hheld|]. split; [exact Hnd|]. rewrite Hlog. reflexivity.
Defined.

(** ** What a call leaves behind *)

Lemma atomic_frame_call h0 : atomic_frame h0 (Atomic.call h0).
Proof. unfold atomic_frame. simpl. auto. Qed.

Lemma atomic_frame_act h0 a c :
  atomic_frame h0 c -> atomic_frame h0 (act Atomic.atomic_lr_sc a c).
Proof.
  destruct c as [p h lg]. unfold atomic_frame.
  destruct a as [|[d|]]; simpl.
  2, 3: destruct p; simpl; tauto.
  intros (Hc & Hi & Ht & Hmem & Hp).
  destruct p; simpl in Hp |- *.
  - tauto.
  - tauto.
  - tauto.
  - destruct (a3 h =? a1 h); simpl; tauto.
  - destruct Hp as (H0 & H1).
    destruct (Atomic.sc_ok h); simpl; repeat split; try assumption.
    intros x Hx. unfold store_word. rewrite H0.
    destruct (Z.eqb_spec x LOCK_ADDR); [contradiction|]. apply Hmem, Hx.
  - destruct Hp as (H0 & H1 & Hr).
    destruct (Z.eqb_spec (a3 h) 0); simpl; tauto.
  - tauto.
Qed.

Lemma atomic_frame_run h0 sched :
  atomic_frame h0 (Atomic.run sched (Atomic.call h0)).
Proof.
  unfold Atomic.run.
  apply (exec_invariant Atomic.atomic_lr_sc (atomic_frame h0)).
  - intros a c. apply atomic_frame_act.
  - apply atomic_frame_call.
Qed.

(** X2. Along every execution of a call the routine leaves mcause, mip, the
    compare register and every memory word other than the one at 0xc0100000
    as they were; when it is left, the registers its instructions write
    without declaring them hold a0 = 0xc0100000, a1 = 0, a3 = 0, and the
    reservation is gone. *)
Theorem lock_routine_footprint :
  forall (h0 : hw) (sched : list action),
    let c := Atomic.run sched (Atomic.call h0) in
    mcause (hw_of c) = mcause h0
    /\ mip (hw_of c) = mip h0
    /\ mtimecmp (hw_of c) = mtimecmp h0
    /\ (forall x, x <> LOCK_ADDR -> mem (hw_of c) x = mem h0 x)
    /\ (frame_of c = Atomic.Done ->
        a0 (hw_of c) = LOCK_ADDR /\ a1 (hw_of c) = 0 /\ a3 (hw_of c) = 0
        /\ resv (hw_of c) = None).
Proof.
  intros h0 sched c.
  pose proof (atomic_frame_run h0 sched) as H. fold c in H.
  unfold atomic_frame in H. destruct H as (Hc & Hi & Ht & Hmem & Hp).
  repeat split; try assumption; rewrite H in Hp; apply Hp.
Qed.

(** Entered with a0 = 0, a1 = 0, a3 = 0 and a neighbouring word at 5: the
    routine is left with a0 = 0xc0100000 and the neighbour still at 5. *)
Lemma lock_routine_footprint_scenario :
  let h0 := set_mem (store_word (fun _ => 0) (LOCK_ADDR + 4) 5)
                    (hw_with 0 0x880 0 1) in
  let c := Atomic.run (steps 6) (Atomic.call h0) in
  frame_of c = Atomic.Done
  /\ a0 (hw_of c) = LOCK_ADDR
  /\ mem (hw_of c) (LOCK_ADDR + 4) = 5
  /\ mip (hw_of c) = 0x880.
Proof.
  intros h0 c.
  destruct (lock_routine_footprint h0 (steps 6))
    as (_ & Hi & _ & Hmem & Hregs).
  destruct (Hregs eq_refl) as (Ha0 & _).
  assert (Hne : LOCK_ADDR + 4 <> LOCK_ADDR) by (unfold LOCK_ADDR; lia).
  split; [reflexivity|]. split; [exact Ha0|]. split.
  - exact (Hmem _ Hne).
  - exact Hi.
Defined.

(** ** Taking the lock after lost reservations *)

Lemma retry_phase_act a c :
  retry_phase c -> retry_phase (act Atomic.atomic_lr_sc a c).
Proof.
  destruct c as [p h lg]. unfold retry_phase.
  destruct a as [|[d|]]; simpl.
  2, 3: destruct p; simpl; tauto.
  destruct p; simpl; intros H;
    repeat match goal with H : _ /\ _ |- _ => destruct H end.
  - auto.
  - auto.
  - repeat split; try assumption; congruence.
  - replace (a3 h =? a1 h) with true
      by (symmetry; apply Z.eqb_eq; congruence).
    simpl. auto.
  - destruct (Atomic.sc_ok h); simpl; auto.
  - destruct (Z.eqb_spec (a3 h) 0); simpl; [exact I|].
    destruct H; [contradiction|assumption].
  - exact I.
Qed.

Lemma retry_phase_run h0 sched :
  mem h0 LOCK_ADDR = 0 -> retry_phase (Atomic.run sched (Atomic.call h0)).
Proof.
  intros Hm. unfold Atomic.run. apply exec_invariant.
  - intros a c. apply retry_phase_act.
  - exact Hm.
Qed.

(** While the reservation is kept, every instruction brings the end of the
    routine one step nearer. *)
Lemma todo_act a c :
  keeps_reservation a = true ->
  retry_phase c ->
  todo (act Atomic.atomic_lr_sc a c)
  = (todo c - if is_cpu a then 1 else 0)%nat.
Proof.
  destruct c as [p h lg]. unfold retry_phase, todo.
  destruct a as [|[d|]]; simpl; try discriminate; intros _.
  - destruct p; simpl; intros H;
      repeat match goal with H : _ /\ _ |- _ => destruct H end;
      try reflexivity.
    + unfold Atomic.sc_ok. simpl. now rewrite Z.eqb_refl.
    + replace (a3 h =? a1 h) with true
        by (symmetry; apply Z.eqb_eq; congruence).
      simpl. destruct (Atomic.sc_ok h); reflexivity.
    + destruct (Atomic.sc_ok h); reflexivity.
    + destruct (a3 h =? 0); reflexivity.
  - intros _. destruct p; simpl; try lia.
    + unfold Atomic.sc_ok. simpl. destruct (Atomic.sc_ok h); simpl; lia.
    + unfold Atomic.sc_ok. simpl. destruct (Atomic.sc_ok h); simpl; lia.
Qed.

Lemma todo_run more : forall c,
  undisturbed more = true ->
  retry_phase c ->
  todo (Atomic.run more c) = (todo c - cpu_steps more)%nat.
Proof.
  unfold Atomic.run. induction more as [|a l IH]; intros c Hu Hc.
  - simpl. unfold cpu_steps. simpl. lia.
  - simpl in Hu. apply andb_prop in Hu. destruct Hu as (Ha & Hl).
    rewrite exec_cons, IH by (try assumption; apply retry_phase_act, Hc).
    rewrite todo_act by assumption.
    unfold cpu_steps. simpl. destruct (is_cpu a); simpl; lia.
Qed.

Lemma todo_bound c : (todo c <= 9)%nat.
Proof.
  unfold todo. destruct (frame_of c); try lia;
    match goal with |- context [if ?b then _ else _] => destruct b end; lia.
Qed.

Lemma todo_done c : todo c = 0%nat -> frame_of c = Atomic.Done.
Proof.
  unfold todo. destruct (frame_of c); try discriminate; try reflexivity;
    match goal with |- context [if ?b then _ else _] => destruct b end;
    discriminate.
Qed.

(** X3. Entered on a lock word at 0, whatever reservations were lost so far
    and wherever the routine stands: nine further instructions during which
    the reservation is kept are enough for the routine to be left, and the
    lock word then holds the entry value of a2. *)
Theorem lock_taken_once_undisturbed :
  forall (h0 : hw) (sched more : list action),
    mem h0 LOCK_ADDR = 0 ->
    undisturbed more = true ->
    (9 <= cpu_steps more)%nat ->
    let c := Atomic.run (sched ++ more) (Atomic.call h0) in
    frame_of c = Atomic.Done /\ mem (hw_of c) LOCK_ADDR = a2 h0.
Proof.
  intros h0 sched more Hm Hu Hn c.
  assert (Hd : frame_of c = Atomic.Done).
  { apply todo_done. unfold c, Atomic.run. rewrite exec_app.
    fold (Atomic.run sched (Atomic.call h0)).
    fold (Atomic.run more (Atomic.run sched (Atomic.call h0))).
    rewrite todo_run by (try assumption; apply retry_phase_run, Hm).
    pose proof (todo_bound (Atomic.run sched (Atomic.call h0))). lia. }
  split; [exact Hd|].
  pose proof (atomic_phase_run h0 (sched ++ more)) as Hph. fold c in Hph.
  unfold atomic_phase in Hph. destruct Hph as (_ & _ & Hph).
  rewrite Hd in Hph. apply Hph.
Qed.

(** The reservation is lost twice, once after the load and once just before
    the store; nine quiet instructions later the lock is taken. *)
Lemma lock_taken_scenario :
  let sched := [Cpu; Cpu; Cpu; Env LoseReservation; Cpu; Cpu; Cpu;
                Cpu; Cpu; Cpu; Cpu; Env LoseReservation] in
  let c := Atomic.run (sched ++ steps 9) (Atomic.call (hw_with 0 0 0 3)) in
  frame_of (Atomic.run sched (Atomic.call (hw_with 0 0 0 3))) = Atomic.Sc
  /\ frame_of c = Atomic.Done
  /\ mem (hw_of c) LOCK_ADDR = 3.
Proof.
  intros sched c.
  destruct (lock_taken_once_undisturbed (hw_with 0 0 0 3) sched (steps 9)
              eq_refl eq_refl (le_n 9)) as (Hd & Hmem).
  fold c in Hd, Hmem. split; [reflexivity|]. split; assumption.
Defined.

(** ** The rounds of a call *)

Lemma rounds_phase_call h0 : rounds_phase h0 (Atomic.call h0).
Proof.
  unfold rounds_phase. simpl. repeat split. exists []. simpl. auto.
Qed.

Lemma rounds_phase_act h0 a c :
  rounds_phase h0 c -> rounds_phase h0 (act Atomic.atomic_lr_sc a c).
Proof.
  destruct c as [p h lg]. unfold rounds_phase, pending.
  destruct a as [|[d|]]; simpl.
  2, 3: destruct p; simpl; tauto.
  intros (Ha2 & Hp & past & Hpast & Hlog). subst lg.
  destruct p; simpl in *.
  - repeat split; try assumption. exists past. rewrite ?app_nil_r. auto.
  - repeat split; try tauto. exists past. rewrite ?app_nil_r. auto.
  - destruct Hp as (H0 & H1). rewrite H0.
    repeat split; try assumption. exists past. rewrite ?app_nil_r. auto.
  - destruct Hp as (H0 & H1). rewrite H1.
    destruct (Z.eqb_spec (a3 h) 0) as [E|E]; simpl.
    + repeat split; try assumption. exists past. rewrite ?app_nil_r, E. auto.
    + repeat split; try assumption. exists (past ++ [Busy (a3 h)]).
      split.
      * apply Forall_app. split; [assumption|]. constructor; [exact E|].
        constructor.
      * rewrite flat_map_app. simpl. rewrite ?app_nil_r. reflexivity.
  - destruct Hp as (H0 & H3). rewrite H0, Ha2.
    destruct (Atomic.sc_ok h); simpl; repeat split; auto;
      exists past; rewrite <- app_assoc; auto.
  - destruct Hp as [E|E]; rewrite E in *; simpl in *.
    + repeat split; try assumption. exists past. rewrite ?app_nil_r. auto.
    + repeat split; try assumption. exists (past ++ [Lost]).
      split.
      * apply Forall_app. split; [assumption|]. constructor; [exact I|].
        constructor.
      * rewrite flat_map_app. simpl. rewrite ?app_nil_r. reflexivity.
  - repeat split; try assumption. exists past. rewrite ?app_nil_r. auto.
Qed.

Lemma rounds_phase_run h0 sched :
  rounds_phase h0 (Atomic.run sched (Atomic.call h0)).
Proof.
  unfold Atomic.run. apply exec_invariant.
  - intros a c. apply rounds_phase_act.
  - apply rounds_phase_call.
Qed.

(** X4. The accesses of a call, along every execution: a sequence of rounds
    that failed (a load-reserved that returned a non-zero value, or a
    load-reserved that returned 0 followed by a conditional store that
    failed), followed by the round in progress. Hence every conditional
    store comes right after a load-reserved that returned 0, and when the
    routine has been left its one successful conditional store is its last
    access. *)
Theorem lock_routine_rounds :
  forall (h0 : hw) (sched : list action),
    let c := Atomic.run sched (Atomic.call h0) in
    exists past,
      Forall failed past
      /\ log_of c = flat_map (render (a2 h0)) past ++ pending (a2 h0) c
      /\ (frame_of c = Atomic.Done ->
          log_of c
          = flat_map (render (a2 h0)) past
            ++ [LoadReserved LOCK_ADDR 0;
                StoreConditional LOCK_ADDR (a2 h0) true]).
Proof.
  intros h0 sched c.
  destruct (rounds_phase_run h0 sched) as (_ & _ & past & Hpast & Hlog).
  fold c in Hlog. exists past. repeat split; try assumption.
  intros Hd. rewrite Hlog. unfold pending. rewrite Hd. reflexivity.
Qed.

(** A call that loses its reservation in the first round and succeeds in
    the second: one failed round in the log, then the successful one. *)
Lemma lock_routine_rounds_scenario :
  let sched := steps 4 ++ [Env LoseReservation] ++ steps 8 in
  let c := Atomic.run sched (Atomic.call (hw_with 0 0 0 3)) in
  frame_of c = Atomic.Done
  /\ log_of c
     = [LoadReserved LOCK_ADDR 0; StoreConditional LOCK_ADDR 3 false;
        LoadReserved LOCK_ADDR 0; StoreConditional LOCK_ADDR 3 true]
  /\ exists past,
       Forall failed past
       /\ log_of c
          = flat_map (render 3) past
            ++ [LoadReserved LOCK_ADDR 0; StoreConditional LOCK_ADDR 3 true].
Proof.
  intros sched c.
  assert (Hd : frame_of c = Atomic.Done) by (vm_compute; reflexivity).
  destruct (lock_routine_rounds (hw_with 0 0 0 3) sched)
    as (past & Hpast & _ & Hdone).
  fold c in Hdone. specialize (Hdone Hd).
  split; [exact Hd|]. split; [vm_compute; reflexivity|].
  exists past. split; [exact Hpast|exact Hdone].
Defined.

(** ** Calling the routine again *)

(** X5. There is no release: after a call by a single participant that took
    a free lock with a non-zero a2, a further call (on any registers, the
    memory being as the first call left it) is never left and never gets as
    far as its conditional store, so the lock word keeps the value the first
    call stored. *)
Theorem second_call_never_returns :
  forall (h0 h1 : hw) (first second : list action),
    mem h0 LOCK_ADDR = 0 ->
    a2 h0 <> 0 ->
    undisturbed first = true ->
    (6 <= cpu_steps first)%nat ->
    let c1 := Atomic.run first (Atomic.call h0) in
    mem h1 = mem (hw_of c1) ->
    let c2 := Atomic.run second (Atomic.call h1) in
    frame_of c1 = Atomic.Done
    /\ frame_of c2 <> Atomic.Done
    /\ frame_of c2 <> Atomic.Sc
    /\ mem (hw_of c2) LOCK_ADDR = a2 h0.
Proof.
  intros h0 h1 first second Hm Ha2 Hu Hn c1 Hmem c2.
  destruct (acquire_stores_a2 h0 first Hm Hu Hn) as (Hd & Hw).
  fold c1 in Hd, Hw.
  assert (Hheld : mem h1 LOCK_ADDR <> 0) by (rewrite Hmem, Hw; exact Ha2).
  pose proof (spin_phase_run h1 second Hheld) as Hph. fold c2 in Hph.
  unfold spin_phase in Hph. destruct Hph as (Hsame & _ & Hp).
  split; [exact Hd|]. split; [|split].
  - intros E. rewrite E in Hp. exact Hp.
  - intros E. rewrite E in Hp. exact Hp.
  - rewrite Hsame, Hmem. exact Hw.
Qed.

(** The first call stores 1; the second one is still spinning after a
    hundred instructions. *)
Lemma second_call_scenario :
  let h0 := hw_with 0 0 0 1 in
  let c1 := Atomic.run (steps 6) (Atomic.call h0) in
  let c2 := Atomic.run (steps 100) (Atomic.call (hw_of c1)) in
  frame_of c1 = Atomic.Done
  /\ frame_of c2 <> Atomic.Done
  /\ mem (hw_of c2) LOCK_ADDR = 1.
Proof.
  intros h0 c1 c2.
  assert (Ha2 : a2 h0 <> 0) by discriminate.
  destruct (second_call_never_returns h0 (hw_of c1) (steps 6) (steps 100)
              eq_refl Ha2 eq_refl (le_n 6) eq_refl)
    as (Hd & Hnd & _ & Hw).
  split; [exact Hd|]. split; [exact Hnd|exact Hw].
Defined.

(** ** What the dispatcher leaves untouched *)

Lemma trap_frame_enter h0 : trap_frame h0 (Trap.enter h0).
Proof. unfold trap_frame. simpl. repeat split; constructor. Qed.

Lemma trap_frame_act h0 a c :
  trap_frame h0 c -> trap_frame h0 (act Trap.handle_trap a c).
Proof.
  destruct c as [[p cz k] h lg]. unfold trap_frame.
  destruct a as [|[d|]]; simpl.
  2, 3: destruct p; simpl; tauto.
  intros (Hc & Hm & Hlog & Hp).
  unfold Trap.handle_trap. destruct p; simpl in Hp |- *;
    rewrite ?app_nil_r; repeat split; try assumption;
    try (apply Forall_app; split; [assumption|];
         constructor; [simpl; auto | constructor]).
  - unfold Trap.switch.
    repeat match goal with
           | |- context [if ?b then _ else _] => destruct b
           end; simpl; assumption.
  - now rewrite Hp.
  - left. assumption.
  - right. now rewrite Hp.
Qed.

Lemma trap_frame_run h0 sched :
  trap_frame h0 (Trap.run sched (Trap.enter h0)).
Proof.
  unfold Trap.run. apply (exec_invariant Trap.handle_trap (trap_frame h0)).
  - intros a c. apply trap_frame_act.
  - apply trap_frame_enter.
Qed.

Lemma cleared_bit_was_set (x n i : Z) :
  0 <= n ->
  Z.testbit (Z.land x (Z.lnot (2 ^ n))) i = true -> Z.testbit x i = true.
Proof.
  intros Hn. destruct (Z.eq_dec i n) as [->|Hne].
  - now rewrite clear_bit_self.
  - now rewrite clear_bit_other.
Qed.

(** X6. Whatever the cause and however far the dispatch has come: mcause
    and memory are as at entry; the only accesses performed are the read of
    mcause, the clearing of mask 1<<7 or 1<<11 in mip, the read of the
    counter and the write of the compare register (no load-reserved, no
    conditional store, no output); no pending bit has been set, and no
    pending bit other than 7 and 11 has changed. *)
Theorem dispatcher_footprint :
  forall (h0 : hw) (sched : list action),
    let c := Trap.run sched (Trap.enter h0) in
    mcause (hw_of c) = mcause h0
    /\ mem (hw_of c) = mem h0
    /\ Forall trap_access (log_of c)
    /\ (forall i, Z.testbit (mip (hw_of c)) i = true ->
                  Z.testbit (mip h0) i = true)
    /\ (forall i, i <> 7 -> i <> 11 ->
                  Z.testbit (mip (hw_of c)) i = Z.testbit (mip h0) i).
Proof.
  intros h0 sched c.
  pose proof (trap_frame_run h0 sched) as H. fold c in H.
  unfold trap_frame in H.
  destruct H as (Hc & Hm & Hlog & Hp).
  assert (Hmip : mip (hw_of c) = mip h0
                 \/ mip (hw_of c) = Z.land (mip h0) (Z.lnot (2 ^ 7))
                 \/ mip (hw_of c) = Z.land (mip h0) (Z.lnot (2 ^ 11))).
  { rewrite <- MIP_TIMER_bit, <- MIP_EXTERNAL_bit.
    destruct (Trap.at_ (frame_of c)); tauto. }
  split; [exact Hc|]. split; [exact Hm|].
  split; [exact Hlog|]. split.
  - intros i. destruct Hmip as [-> | [-> | ->]]; [auto| |];
      apply cleared_bit_was_set; lia.
  - intros i H7 H11. destruct Hmip as [-> | [-> | ->]]; [reflexivity| |];
      apply clear_bit_other; (lia || assumption).
Qed.

(** A timer dispatch with several bits pending and a value in memory: the
    memory word is as before, bit 3 is still pending. *)
Lemma dispatcher_footprint_scenario :
  let h0 := set_mem (store_word (fun _ => 0) LOCK_ADDR 7)
                    (hw_with CAUSE_TIMER 0x888 5000 9) in
  let c := Trap.run (steps 5) (Trap.enter h0) in
  mem (hw_of c) LOCK_ADDR = 7
  /\ Z.testbit (mip (hw_of c)) 3 = true.
Proof.
  intros h0 c.
  destruct (dispatcher_footprint h0 (steps 5))
    as (_ & Hm & _ & _ & Hbits).
  split; [exact (f_equal (fun m => m LOCK_ADDR) Hm)|].
  exact (Hbits 3 ltac:(discriminate) ltac:(discriminate)).
Defined.

(** ** Which dispatches return *)

(** X7. A dispatch has returned exactly when the cause is the timer
    interrupt and it has taken five steps, or the cause is the external
    interrupt and it has taken three; with any other cause no number of
    steps makes it return. *)
Theorem dispatch_returns_iff_resumable :
  forall (h0 : hw) (sched : list action),
    Trap.returned (Trap.run sched (Trap.enter h0))
    <-> resumable (mcause h0)
        /\ (dispatch_length (mcause h0) <= cpu_steps sched)%nat.
Proof.
  intros h0 sched. unfold resumable, dispatch_length.
  destruct (Z.eqb_spec (mcause h0) CAUSE_TIMER) as [Ht|Ht].
  - rewrite (timer_returned_iff h0 sched Ht). tauto.
  - destruct (Z.eq_dec (mcause h0) CAUSE_EXTERNAL) as [He|He].
    + rewrite (external_returned_iff h0 sched He). tauto.
    + split.
      * intros Hr. exfalso.
        pose proof (fault_phase_run h0 sched Ht He) as Hph.
        unfold fault_phase, Trap.returned in *.
        destruct Hph as (_ & _ & _ & _ & _ & _ & _ & _ & Hat).
        rewrite Hr in Hat. exact Hat.
      * tauto.
Qed.

(** ** Dispatches one after the other *)

Lemma resumable_clears h0 sched :
  resumable (mcause h0) ->
  Trap.returned (Trap.run sched (Trap.enter h0)) ->
  mip (hw_of (Trap.run sched (Trap.enter h0)))
  = Z.land (mip h0) (Z.lnot (mask_of (mcause h0))).
Proof.
  unfold mask_of, Trap.returned. intros [Hc|Hc] Hr.
  - pose proof (timer_phase_run h0 sched Hc) as Hph.
    unfold timer_phase in Hph. rewrite Hr in Hph. rewrite Hc. apply Hph.
  - pose proof (external_phase_run h0 sched Hc) as Hph.
    unfold external_phase in Hph. rewrite Hr in Hph. rewrite Hc. apply Hph.
Qed.

Lemma idle_keeps_mip es h : mip (idle es h) = mip h.
Proof.
  revert h. induction es as [|e es IH]; intros h; [reflexivity|].
  simpl. rewrite IH. destruct e; reflexivity.
Qed.

Lemma clear_two (x a b : Z) :
  Z.land (Z.land x (Z.lnot a)) (Z.lnot b) = Z.land x (Z.lnot (Z.lor a b)).
Proof.
  apply Z.bits_inj'. intros i Hi.
  rewrite !Z.land_spec, !Z.lnot_spec, Z.lor_spec by assumption.
  destruct (Z.testbit x i), (Z.testbit a i), (Z.testbit b i); reflexivity.
Qed.

(** X8. Two dispatches of resumable causes that both return, the second
    entered on the hardware the first left (the counter may have moved):
    the pending field ends as it was at the first entry with the bits of
    both causes cleared, so the order of a timer and an external dispatch
    does not matter to it and dispatching the same cause twice clears
    nothing more than once. *)
Theorem dispatches_compose :
  forall (h0 : hw) (cause2 : Z) (sched1 sched2 : list action)
         (between : list envact),
    resumable (mcause h0) ->
    resumable cause2 ->
    let c1 := Trap.run sched1 (Trap.enter h0) in
    let h1 := set_mcause cause2 (idle between (hw_of c1)) in
    let c2 := Trap.run sched2 (Trap.enter h1) in
    Trap.returned c1 ->
    Trap.returned c2 ->
    mip (hw_of c2)
    = Z.land (mip h0) (Z.lnot (Z.lor (mask_of (mcause h0)) (mask_of cause2)))
    /\ (cause2 = mcause h0 -> mip (hw_of c2) = mip (hw_of c1)).
Proof.
  intros h0 cause2 sched1 sched2 between Hr1 Hr2 c1 h1 c2 Hd1 Hd2.
  pose proof (resumable_clears h0 sched1 Hr1 Hd1) as H1. fold c1 in H1.
  assert (Hc : mcause h1 = cause2) by reflexivity.
  assert (Hr2' : resumable (mcause h1)) by (rewrite Hc; exact Hr2).
  pose proof (resumable_clears h1 sched2 Hr2' Hd2) as H2. fold c2 in H2.
  assert (Hm : mip h1 = mip (hw_of c1)).
  { unfold h1. simpl. apply idle_keeps_mip. }
  rewrite Hc, Hm, H1, clear_two in H2. split; [exact H2|].
  intros ->. rewrite H2, H1, Z.lor_diag. reflexivity.
Qed.

(** Bits 3, 7 and 11 pending: a timer dispatch followed by an external one
    and an external one followed by a timer one both leave bit 3 alone. *)
Lemma dispatches_compose_scenario :
  let te := Trap.run (steps 3)
              (Trap.enter (set_mcause CAUSE_EXTERNAL
                 (hw_of (Trap.run (steps 5)
                           (Trap.enter (hw_with CAUSE_TIMER 0x888 0 0)))))) in
  let et := Trap.run (steps 5)
              (Trap.enter (set_mcause CAUSE_TIMER
                 (hw_of (Trap.run (steps 3)
                           (Trap.enter (hw_with CAUSE_EXTERNAL 0x888 0 0)))))) in
  mip (hw_of te) = 8 /\ mip (hw_of et) = 8.
Proof.
  intros te et.
  destruct (dispatches_compose (hw_with CAUSE_TIMER 0x888 0 0) CAUSE_EXTERNAL
              (steps 5) (steps 3) [] (or_introl eq_refl) (or_intror eq_refl)
              eq_refl eq_refl) as (Hte & _).
  destruct (dispatches_compose (hw_with CAUSE_EXTERNAL 0x888 0 0) CAUSE_TIMER
              (steps 3) (steps 5) [] (or_intror eq_refl) (or_introl eq_refl)
              eq_refl eq_refl) as (Het & _).
  split; [exact Hte|exact Het].
Defined.

(** A dispatch of cause 2 is still in its loop after a thousand steps; one
    of the timer cause has returned after five, not after four. *)
Lemma dispatch_returns_scenario :
  ~ Trap.returned (Trap.run (steps 1000) (Trap.enter (hw_with 2 0 0 0)))
  /\ Trap.returned (Trap.run (steps 5) (Trap.enter (hw_with CAUSE_TIMER 0 0 0)))
  /\ ~ Trap.returned
        (Trap.run (steps 4) (Trap.enter (hw_with CAUSE_TIMER 0 0 0))).
Proof.
  split; [|split].
  - intros H. apply dispatch_returns_iff_resumable in H.
    destruct H as ([H|H] & _); discriminate H.
  - apply dispatch_returns_iff_resumable.
    split; [left; reflexivity|apply le_n].
  - intros H. apply dispatch_returns_iff_resumable in H.
    destruct H as (_ & H). vm_compute in H. lia.
Defined.

(** ** The program with the lock word held *)

Lemma stuck_phase_boot h0 : stuck_phase h0 (Sys.boot h0).
Proof. unfold stuck_phase. simpl. repeat split. constructor. Qed.

Lemma stuck_phase_step h0 a s :
  mem h0 LOCK_ADDR <> 0 ->
  stuck_phase h0 s -> stuck_phase h0 (Sys.step a s).
Proof.
  intros Hheld. destruct s as [h [mp mk] tr lg]. unfold stuck_phase. simpl.
  intros (Hm & Hlog & Hp).
  assert (Hgrow : forall oe, is_sc oe = false ->
                  Forall (fun oe => is_sc oe = false) (lg ++ [oe])).
  { intros oe Hoe. apply Forall_app. split; [assumption|].
    constructor; [exact Hoe|constructor]. }
  destruct a as [|e|c]; simpl.
  - unfold Sys.cpu_step. simpl. destruct tr as [[tp tc tk]|]; simpl.
    + destruct tp; simpl; rewrite ?app_nil_r; repeat split;
        try assumption; apply Hgrow; reflexivity.
    + unfold Main.main.
      destruct mp as [| | |p|]; [| | |destruct p|];
        simpl in Hp |- *; try contradiction; rewrite ?app_nil_r.
      * repeat split; try assumption. apply Hgrow. reflexivity.
      * repeat split; try assumption. apply Hgrow. reflexivity.
      * repeat split; try assumption. apply Hgrow. reflexivity.
      * repeat split; try assumption.
      * repeat split; tauto.
      * destruct Hp as (H0 & H1). rewrite H0, Hm.
        repeat split; try assumption. apply Hgrow. reflexivity.
      * destruct Hp as (H1 & H3).
        replace (a3 h =? a1 h) with false
          by (symmetry; apply Z.eqb_neq; congruence).
        simpl. repeat split; assumption.
  - destruct e; simpl; repeat split; assumption.
  - destruct tr; simpl; repeat split; assumption.
Qed.

Lemma stuck_phase_exec h0 sched :
  mem h0 LOCK_ADDR <> 0 -> stuck_phase h0 (Sys.exec sched (Sys.boot h0)).
Proof.
  intros Hheld. apply (sys_exec_invariant (stuck_phase h0)).
  - intros a s. apply stuck_phase_step, Hheld.
  - apply stuck_phase_boot.
Qed.

(** X9. Started while the word at 0xc0100000 is not 0, the program never
    reaches the end of [main], whichever traps are delivered and however
    long it runs: it stays at or before the [bne] of [atomic_lr_sc], never
    performs a conditional store, and memory stays as it was. *)
Theorem program_hangs_on_held_lock :
  forall (h0 : hw) (sched : list Sys.action),
    mem h0 LOCK_ADDR <> 0 ->
    let s := Sys.exec sched (Sys.boot h0) in
    Main.at_ (Sys.normal s) <> Main.Exit
    /\ Main.at_ (Sys.normal s) <> Main.Call Atomic.Sc
    /\ Forall (fun oe => is_sc oe = false) (Sys.log s)
    /\ mem (Sys.hw_ s) = mem h0.
Proof.
  intros h0 sched Hheld s.
  pose proof (stuck_phase_exec h0 sched Hheld) as H. fold s in H.
  unfold stuck_phase in H. destruct H as (Hm & Hlog & Hp).
  repeat split; try assumption; intros E; rewrite E in Hp; exact Hp.
Qed.

(** The lock word holds 7 and a timer interrupt is served on the way: after
    two hundred steps [main] is still inside [atomic_lr_sc]. *)
Lemma program_hangs_scenario :
  let h0 := set_mem (store_word (fun _ => 0) LOCK_ADDR 7)
                    (hw_with 0 0x80 5000 1) in
  let sched := repeat Sys.Cpu 5 ++ [Sys.Deliver CAUSE_TIMER]
               ++ repeat Sys.Cpu 200 in
  let s := Sys.exec sched (Sys.boot h0) in
  mem h0 LOCK_ADDR <> 0
  /\ Main.at_ (Sys.normal s) <> Main.Exit
  /\ mem (Sys.hw_ s) LOCK_ADDR = 7.
Proof.
  intros h0 sched s.
  assert (Hheld : mem h0 LOCK_ADDR <> 0) by discriminate.
  destruct (program_hangs_on_held_lock h0 sched Hheld) as (Hne & _ & _ & Hm).
  split; [exact Hheld|]. split; [exact Hne|].
  exact (f_equal (fun m => m LOCK_ADDR) Hm).
Defined.

(** ** A trap the dispatcher does not return from *)

Lemma frozen_phase_step cause a s s' :
  cause <> CAUSE_TIMER -> cause <> CAUSE_EXTERNAL ->
  frozen_phase cause s s' -> frozen_phase cause s (Sys.step a s').
Proof.
  intros Ht He. destruct (switch_fault _ Ht He) as (site & Hsw).
  destruct s' as [h' n' tr lg']. unfold frozen_phase. simpl.
  intros (Hn & Hi & Hc & Hm & Hp).
  destruct tr as [[tp tc tk]|]; [|contradiction].
  destruct a as [|e|c]; simpl.
  - unfold Sys.cpu_step. simpl.
    destruct tp; simpl in Hp |- *; try contradiction.
    + destruct Hp as (Hcause & Hlog). rewrite Hcause, Hlog. tauto.
    + destruct Hp as (Hcause & Hlog). rewrite Hcause, Hsw. simpl.
      rewrite app_nil_r. tauto.
    + rewrite app_nil_r. tauto.
  - destruct e; simpl; destruct tp; simpl in Hp |- *; tauto.
  - destruct tp; simpl in Hp |- *; tauto.
Qed.

(** X10. A trap with a cause other than the two interrupts, delivered while
    no trap is being handled, stops the program for good: whatever follows,
    the dispatcher stays in charge, [main] stands where it was interrupted,
    the pending field, the compare register and memory are as they were,
    and the log has grown by nothing but the read of mcause. *)
Theorem fault_trap_stops_the_program :
  forall (s : Sys.state) (cause : Z) (sched : list Sys.action),
    Sys.trap s = None ->
    cause <> CAUSE_TIMER ->
    cause <> CAUSE_EXTERNAL ->
    let s' := Sys.exec (Sys.Deliver cause :: sched) s in
    Sys.trap s' <> None
    /\ Sys.normal s' = Sys.normal s
    /\ mip (Sys.hw_ s') = mip (Sys.hw_ s)
    /\ mtimecmp (Sys.hw_ s') = mtimecmp (Sys.hw_ s)
    /\ mem (Sys.hw_ s') = mem (Sys.hw_ s)
    /\ (Sys.log s' = Sys.log s
        \/ Sys.log s'
           = Sys.log s ++ [(In_handle_trap, CsrRead MCAUSE cause)]).
Proof.
  intros s cause sched Hnone Ht He s'.
  assert (H : frozen_phase cause s s').
  { unfold s'. rewrite sys_exec_cons.
    apply (sys_exec_invariant (frozen_phase cause s)).
    - intros a x. apply frozen_phase_step; assumption.
    - unfold frozen_phase. simpl. rewrite Hnone. simpl. tauto. }
  unfold frozen_phase in H. destruct H as (Hn & Hi & Hc & Hm & Hp).
  repeat split; try assumption.
  - intros E. rewrite E in Hp. exact Hp.
  - destruct (Sys.trap s') as [f|]; [|contradiction].
    destruct (Trap.at_ f); try contradiction; tauto.
Qed.

(** An illegal-instruction trap (code 2) right after the timer was armed:
    three hundred steps later the greeting has still not been printed. *)
Lemma fault_trap_scenario :
  let s := Sys.exec [Sys.Cpu; Sys.Cpu] (Sys.boot (hw_with 0 0 5000 1)) in
  let s' := Sys.exec (Sys.Deliver 2 :: repeat Sys.Cpu 300) s in
  Sys.trap s = None
  /\ Main.at_ (Sys.normal s') = Main.Printf
  /\ mtimecmp (Sys.hw_ s') = 5100.
Proof.
  intros s s'.
  destruct (fault_trap_stops_the_program s 2 (repeat Sys.Cpu 300) eq_refl
              ltac:(discriminate) ltac:(discriminate))
    as (_ & Hn & _ & Hc & _).
  split; [reflexivity|]. split.
  - exact (f_equal Main.at_ Hn).
  - exact Hc.
Defined.

(** ** What [main] does, traps or not *)

Lemma sys_exec_snoc l a s :
  Sys.exec (l ++ [a]) s = Sys.step a (Sys.exec l s).
Proof. unfold Sys.exec. rewrite fold_left_app. reflexivity. Qed.

Lemma script_phase_boot h0 : script_phase (Sys.boot h0).
Proof.
  exists []. simpl. repeat split; [constructor|]. intros H. now elim H.
Qed.

Lemma script_phase_step a s : script_phase s -> script_phase (Sys.step a s).
Proof.
  destruct s as [h [mp mk] tr lg]. unfold script_phase, normal_log. simpl.
  intros (rest & Hlog & Hrest & Hst).
  destruct a as [|e|c]; simpl.
  - unfold Sys.cpu_step. simpl. destruct tr as [[tp tc tk]|]; simpl.
    + destruct tp; simpl; exists rest; rewrite ?filter_app; simpl;
        rewrite ?app_nil_r; repeat split; assumption.
    + assert (Hearly : (stage mp < 3)%nat -> rest = []).
      { intros Hlt. destruct rest; [reflexivity|].
        rewrite Hst in Hlt by discriminate. lia. }
      unfold Main.main. simpl.
      destruct mp as [| | |p|]; simpl in *.
      * rewrite (Hearly ltac:(lia)) in *. exists [].
        rewrite filter_app, Hlog. simpl.
        split; [reflexivity|]. split; [constructor|]. intros H. now elim H.
      * rewrite (Hearly ltac:(lia)) in *. exists [].
        rewrite filter_app, Hlog. simpl.
        split; [reflexivity|]. split; [constructor|]. intros H. now elim H.
      * rewrite (Hearly ltac:(lia)) in *. exists [].
        rewrite filter_app, Hlog. simpl.
        split; [reflexivity|]. split; [constructor|]. intros H. now elim H.
      * destruct p; simpl;
          repeat match goal with
                 | |- context [if ?b then _ else _] => destruct b
                 end; simpl; rewrite ?app_nil_r.
        all: try (exists rest; repeat split; assumption).
        all: rewrite filter_app, Hlog; simpl;
          eexists; (split; [reflexivity|]); split;
          [apply Forall_app; (split; [assumption|]);
           constructor; [reflexivity|constructor]
          |intros _; reflexivity].
      * exists rest. rewrite app_nil_r. repeat split; assumption.
  - exists rest. repeat split; assumption.
  - destruct tr; simpl; exists rest; repeat split; assumption.
Qed.

(** X11. In every execution of the program, whichever traps are served in
    between, the accesses performed outside [handle_trap] are, in this
    order: the read of the counter, the write to the compare register of
    the value read plus 100 (at type [uint64_t]), the greeting, and from
    then on accesses of [atomic_lr_sc] only. In particular [main] arms the
    timer from the counter value it read itself, also when a timer trap
    rearmed the compare register between its read and its write. *)
Theorem main_accesses_in_order :
  forall (h0 : hw) (sched : list Sys.action),
    let s := Sys.exec sched (Sys.boot h0) in
    exists v rest,
      normal_log (Sys.log s)
      = firstn (stage (Main.at_ (Sys.normal s))) (main_script v) ++ rest
      /\ Forall (fun oe => fst oe = In_atomic_lr_sc) rest
      /\ (rest <> [] -> stage (Main.at_ (Sys.normal s)) = 3%nat).
Proof.
  intros h0 sched s.
  assert (H : script_phase s).
  { apply (sys_exec_invariant script_phase).
    - intros a x. apply script_phase_step.
    - apply script_phase_boot. }
  destruct H as (rest & H). exists (Main.counter (Sys.normal s)), rest.
  exact H.
Qed.

(** A timer trap is served between the read and the write of line 99: the
    dispatcher leaves 6000 in the compare register and [main] then
    overwrites it with 5100. *)
Lemma main_accesses_scenario :
  let sched := [Sys.Cpu; Sys.Deliver CAUSE_TIMER] ++ repeat Sys.Cpu 6
               ++ [Sys.Cpu] in
  let s := Sys.exec sched (Sys.boot (hw_with 0 0x80 5000 1)) in
  Sys.log s
  = [(In_main, Load64 IO_MTIME 5000);
     (In_handle_trap, CsrRead MCAUSE CAUSE_TIMER);
     (In_handle_trap, CsrClear MIP 128);
     (In_handle_trap, Load64 IO_MTIME 5000);
     (In_handle_trap, Store64 IO_MTIMECMP 6000);
     (In_main, Store64 IO_MTIMECMP 5100)]
  /\ mtimecmp (Sys.hw_ s) = 5100
  /\ exists v rest,
       normal_log (Sys.log s) = firstn 2 (main_script v) ++ rest.
Proof.
  intros sched s.
  destruct (main_accesses_in_order (hw_with 0 0x80 5000 1) sched)
    as (v & rest & Hlog & _).
  split; [reflexivity|]. split; [reflexivity|].
  exists v, rest. exact Hlog.
Defined.

(** ** A run of [main] without traps *)

Lemma main_phase_boot h0 :
  mem h0 LOCK_ADDR = 0 -> main_phase (Sys.boot h0).
Proof.
  intros Hm. unfold main_phase. simpl. repeat split; try assumption.
  intros H. inversion H.
Qed.

Lemma main_phase_step a s :
  keeps_reservation a = true ->
  main_phase s -> main_phase (Sys.step (lift a) s).
Proof.
  destruct s as [h [mp mk] tr lg]. unfold main_phase. simpl.
  intros Ha (Htr & Hlog & Hcmp & Hp). subst tr lg.
  destruct a as [|[d|]]; simpl; try discriminate.
  - unfold Sys.cpu_step, Main.main. simpl.
    destruct mp as [| | |p|]; [| | |destruct p|]; simpl in Hp, Hcmp |- *;
      rewrite ?app_nil_r.
    7: replace (a3 h =? a1 h) with true
         by (symmetry; apply Z.eqb_eq; destruct Hp as (_ & H1 & H3 & _);
             congruence).
    8: replace (Atomic.sc_ok h) with true
         by (unfold Atomic.sc_ok; destruct Hp as (H0 & Hr);
             rewrite Hr, H0; symmetry; apply Z.eqb_refl).
    9: replace (a3 h =? 0) with true
         by (symmetry; apply Z.eqb_eq; apply Hp).
    all: simpl; rewrite ?app_nil_r; (split; [reflexivity|]).
    + split; [reflexivity|]. split; [intros H; exfalso; lia|exact Hp].
    + split; [reflexivity|]. split; [intros _; reflexivity|exact Hp].
    + split; [reflexivity|]. split; [intros _; apply Hcmp; lia|exact Hp].
    + split; [reflexivity|]. split; [intros _; apply Hcmp; lia|].
      split; [reflexivity|exact Hp].
    + split; [reflexivity|]. split; [intros _; apply Hcmp; lia|]. tauto.
    + destruct Hp as (H0 & H1 & Hm). rewrite H0, Hm.
      split; [reflexivity|]. split; [intros _; apply Hcmp; lia|]. tauto.
    + split; [reflexivity|]. split; [intros _; apply Hcmp; lia|]. tauto.
    + destruct Hp as (H0 & Hr). rewrite H0.
      split; [reflexivity|]. split; [intros _; apply Hcmp; lia|].
      split; [reflexivity|apply store_word_same].
    + split; [reflexivity|]. split; [intros _; apply Hcmp; lia|apply Hp].
    + split; [reflexivity|]. split; [intros _; apply Hcmp; lia|exact Hp].
    + split; [reflexivity|]. split; [intros _; apply Hcmp; lia|exact Hp].
  - destruct mp as [| | |p|]; [| | |destruct p|]; simpl in Hp |- *;
      repeat split; tauto.
Qed.

Lemma main_phase_exec h0 sched :
  mem h0 LOCK_ADDR = 0 ->
  undisturbed sched = true ->
  main_phase (Sys.exec (map lift sched) (Sys.boot h0)).
Proof.
  intros Hm. generalize (main_phase_boot h0 Hm).
  generalize (Sys.boot h0) as s.
  induction sched as [|a l IH]; intros s Hs Hu; [exact Hs|].
  simpl in Hu. apply andb_prop in Hu. destruct Hu as (Ha & Hl).
  change (main_phase (Sys.exec (map lift l) (Sys.step (lift a) s))).
  apply IH; [|exact Hl]. apply main_phase_step; assumption.
Qed.

Lemma main_progress h0 sched :
  mem h0 LOCK_ADDR = 0 ->
  undisturbed sched = true ->
  main_position
    (Main.at_ (Sys.normal (Sys.exec (map lift sched) (Sys.boot h0))))
  = Nat.min 10 (cpu_steps sched).
Proof.
  intros Hm. induction sched as [|a l IH] using rev_ind; [reflexivity|].
  unfold undisturbed. rewrite forallb_app. intros Hu.
  apply andb_prop in Hu. destruct Hu as (Hl & Ha).
  specialize (IH Hl). pose proof (main_phase_exec h0 l Hm Hl) as Hph.
  rewrite map_app. cbn [map]. rewrite sys_exec_snoc, cpu_steps_snoc.
  destruct (Sys.exec (map lift l) (Sys.boot h0)) as [h [mp mk] tr lg].
  unfold main_phase in Hph. cbn [Sys.normal Sys.hw_ Sys.trap Main.at_] in *.
  destruct Hph as (Htr & _ & _ & Hp). subst tr.
  destruct a as [|e]; cbn [is_cpu map lift].
  - unfold Sys.step, Sys.cpu_step, Main.main.
    cbn [Sys.trap Sys.normal Sys.hw_ Main.at_ Main.counter].
    destruct mp as [| | |p|]; [| | |destruct p|];
      cbn [main_position position Nat.add] in IH; simpl in Hp;
      repeat match goal with H : _ /\ _ |- _ => destruct H end.
    all: try (simpl_lhs; lia).
    + unfold Atomic.atomic_lr_sc.
      replace (a3 h =? a1 h) with true
        by (symmetry; apply Z.eqb_eq; congruence).
      simpl_lhs. lia.
    + unfold Atomic.atomic_lr_sc.
      destruct (Atomic.sc_ok h); simpl_lhs; lia.
    + unfold Atomic.atomic_lr_sc.
      match goal with H : a3 h = 0 |- _ => rewrite H end. simpl_lhs. lia.
  - simpl_lhs. lia.
Qed.

(** X12. A run of the program in which no trap is delivered and the
    reservation is not lost, started with the lock word at 0: [main] has
    ended exactly when ten steps have been taken; it has then read the
    counter, written that value plus 100 (at type [uint64_t]) to the
    compare register, printed the greeting, load-reserved 0 from the lock
    word and stored there what a2 holds, in this order and nothing else;
    the compare register holds the value written and the lock word holds
    what a2 holds. *)
Theorem main_runs_to_completion :
  forall (h0 : hw) (sched : list action),
    mem h0 LOCK_ADDR = 0 ->
    undisturbed sched = true ->
    let s := Sys.exec (map lift sched) (Sys.boot h0) in
    (Main.at_ (Sys.normal s) = Main.Exit <-> (10 <= cpu_steps sched)%nat)
    /\ (Main.at_ (Sys.normal s) = Main.Exit ->
        exists v,
          Sys.log s
          = main_script v
            ++ [(In_atomic_lr_sc, LoadReserved LOCK_ADDR 0);
                (In_atomic_lr_sc,
                 StoreConditional LOCK_ADDR (a2 (Sys.hw_ s)) true)]
          /\ mtimecmp (Sys.hw_ s) = add64 v 100
          /\ mem (Sys.hw_ s) LOCK_ADDR = a2 (Sys.hw_ s)).
Proof.
  intros h0 sched Hm Hu s.
  pose proof (main_progress h0 sched Hm Hu) as Hpos.
  pose proof (main_phase_exec h0 sched Hm Hu) as Hph.
  fold s in Hpos, Hph. split.
  - destruct (Main.at_ (Sys.normal s)) as [| | |p|];
      cbn [main_position] in Hpos.
    4: assert (Hle : (position p <= 6)%nat) by (destruct p; simpl; lia).
    all: split; intros Hx; try discriminate Hx; try reflexivity; lia.
  - intros Hex. unfold main_phase in Hph. rewrite Hex in Hph.
    destruct Hph as (_ & Hlog & Hcmp & Hw).
    exists (Main.counter (Sys.normal s)). repeat split; try assumption.
    apply Hcmp. simpl. lia.
Qed.

(** The counter at 5000 and moving: after ten steps [main] has ended with
    5100 in the compare register and the lock word equal to a2. *)
Lemma main_runs_scenario :
  let sched := [Cpu; Env (Tick 40); Cpu; Cpu; Cpu; Cpu; Env (Tick 2);
                Cpu; Cpu; Cpu; Cpu; Cpu] in
  let s := Sys.exec (map lift sched) (Sys.boot (hw_with 0 0 5000 9)) in
  undisturbed sched = true
  /\ Main.at_ (Sys.normal s) = Main.Exit
  /\ mtimecmp (Sys.hw_ s) = 5100
  /\ mem (Sys.hw_ s) LOCK_ADDR = a2 (Sys.hw_ s).
Proof.
  intros sched s.
  destruct (main_runs_to_completion (hw_with 0 0 5000 9) sched eq_refl eq_refl)
    as (Hiff & Hpost).
  assert (Hex : Main.at_ (Sys.normal s) = Main.Exit) by (apply Hiff, le_n).
  destruct (Hpost Hex) as (v & _ & _ & Hw).
  split; [reflexivity|]. split; [exact Hex|]. split; [reflexivity|exact Hw].
Defined.

(** ** The rearm at the top of the counter range *)

Lemma wrap64_range (x : Z) : 0 <= wrap64 x < 2 ^ 64.
Proof. unfold wrap64. apply Z.mod_pos_bound. lia. Qed.

(** X13. The sum of line 29 is a [uint64_t] one: after a timer dispatch
    that has returned the compare register is below 2^64; it lies 1000
    above the counter value that was read unless that value is within 1000
    of 2^64, in which case the sum wraps and the compare register ends up
    below 1000, behind the counter. *)
Theorem timer_rearm_wraps :
  forall (h0 : hw) (sched : list action),
    mcause h0 = CAUSE_TIMER ->
    let c := Trap.run sched (Trap.enter h0) in
    Trap.returned c ->
    exists v,
      observed_at_rearm h0 sched v
      /\ 0 <= mtimecmp (hw_of c) < 2 ^ 64
      /\ (0 <= v < 2 ^ 64 - 1000 -> mtimecmp (hw_of c) = v + 1000)
      /\ (2 ^ 64 - 1000 <= v < 2 ^ 64 ->
          mtimecmp (hw_of c) = v + 1000 - 2 ^ 64
          /\ mtimecmp (hw_of c) < 1000 <= v).
Proof.
  intros h0 sched Hc c Hr.
  apply (timer_returned_iff h0 sched Hc) in Hr.
  destruct (timer_rearm_value h0 sched Hc Hr) as (v & Hobs & Hv).
  fold c in Hv. exists v. rewrite Hv.
  split; [exact Hobs|]. split; [apply wrap64_range|]. split.
  - intros Hlo. apply add64_exact. lia.
  - intros Hhi.
    assert (E : add64 v 1000 = v + 1000 - 2 ^ 64).
    { unfold add64, wrap64. symmetry.
      apply (Z.mod_unique_pos _ _ 1); lia. }
    rewrite E. lia.
Qed.

(** The counter reads 2^64 - 1: the compare register becomes 999. *)
Lemma timer_rearm_wraps_scenario :
  let h0 := hw_with CAUSE_TIMER 0x80 (2 ^ 64 - 1) 0 in
  let c := Trap.run (steps 5) (Trap.enter h0) in
  Trap.returned c
  /\ mtimecmp (hw_of c) = 999
  /\ 0 <= mtimecmp (hw_of c) < 2 ^ 64.
Proof.
  intros h0 c.
  destruct (timer_rearm_wraps h0 (steps 5) eq_refl eq_refl)
    as (v & _ & Hrange & _ & _).
  split; [reflexivity|]. split; [reflexivity|exact Hrange].
Defined.
